(** * DirMon: the debounce engine of [monitor] (src/DirMon.cpp, lines 110-191)

    [monitor] shares two [time_t] variables, [timeSig] (first change of the
    pending burst) and [timeSigLast] (latest change), between the main thread,
    which waits on the change-notification handle and stamps every wake-up
    (lines 164-187), and a ticker thread, which wakes every five seconds and
    runs the batch file once the burst is quiet or a minute old (lines
    117-162).  The value 0 means "no pending burst".

    The development has two layers.
    - The coalescer operations [recordEvent] and [evaluateAndFire]: the body
      of one pass of each loop, as a function on the pair of time stamps.
    - The two threads as a transition system over the shared variables, the
      mutex [muxSig], the flag [done] and a wall clock, one source statement
      per transition, interleaved by an explicit schedule.  Statements are
      taken to be atomic and sequentially consistent.

    The rest of the file follows the program around [monitor]: the word
    wrapping of the usage text ([appendWord], [split], [printUsage], lines
    11-74), the handling of the command line in [wmain] (lines 204-245) and
    the date written in the log lines (lines 142-152). *)

From Stdlib Require Import ZArith NArith List Bool Lia Ascii.
From Stdlib Require String.
Import String.StringSyntax.
Import ListNotations.
Delimit Scope string_scope with string.
Open Scope Z_scope.

(** ** [time_t] *)

(** [time_t] is the 64-bit signed [__time64_t] (line 143 passes [&timeSig] to
    [_wctime64_s]).  Subtraction wraps around in two's complement. *)
Definition time_t : Type := Z.

Definition wrap64 (z : Z) : Z :=
  (z + 9223372036854775808) mod 18446744073709551616 - 9223372036854775808.

Definition time_sub (a b : time_t) : time_t := wrap64 (a - b).

Arguments wrap64 : simpl never.
Arguments time_sub : simpl never.

(** The readings [time(nullptr)] returns: seconds since the epoch. *)
Definition time_range (t : Z) : Prop := 0 <= t < 9223372036854775808.

(** Line 130: the quiet period, line 128: the maximum window (seconds);
    line 121: the poll interval, in seconds ([Sleep(5000)]). *)
Definition quietPeriod : Z := 5.
Definition maxWindow : Z := 60.
Definition pollInterval : Z := 5.

(** ** Observable effects *)

Inductive Output : Type :=
| LogRaw (stamp : time_t)       (* line 182: "[date] Detected a modification. (raw)" *)
| LogDetected (stamp : time_t)  (* line 154: "[date] Detected a modification." *)
| RunBat                        (* line 156: _wsystem(batPath) is called *)
| WarnNonZero (stamp : time_t). (* line 157: "Non-zero error code was returned by ..." *)

Definition is_RunBat (o : Output) : bool :=
  match o with RunBat => true | _ => false end.

(** ** The coalescer *)

(** Lines 114-115. *)
Record BurstState : Type := mkBurst { timeSig : time_t; timeSigLast : time_t }.

Definition noBurst : BurstState := mkBurst 0 0.

(** Lines 168-185, one pass of the main thread's loop body with the clock
    reading [now]. *)
Definition recordEvent (now : time_t) (st : BurstState) : BurstState * list Output :=
  let first := if timeSig st =? 0 then now else timeSig st in
  (mkBurst first now, [LogRaw now]).

(** Lines 142-160: the batch file is run and returns [rc]. *)
Definition fire (rc : Z) (st : BurstState) : BurstState * list Output :=
  let stamp := timeSig st in
  (mkBurst 0 0,
   LogDetected stamp :: RunBat :: (if rc =? 0 then [] else [WarnNonZero stamp])).

(** Lines 123-160, one pass of the ticker's loop body after the sleep, with
    the clock reading [now]; [rc] is what the batch file returns if run. *)
Definition evaluateAndFire (now : time_t) (rc : Z) (st : BurstState)
  : BurstState * list Output :=
  if timeSig st =? 0 then (st, [])
  else if time_sub now (timeSig st) <? maxWindow then
    if time_sub now (timeSigLast st) <? quietPeriod then (st, [])
    else fire rc st
  else fire rc st.

Definition fired (r : BurstState * list Output) : bool := existsb is_RunBat (snd r).

(** Successive passes, the outputs in order. *)
Fixpoint record_all (stamps : list time_t) (st : BurstState) : BurstState * list Output :=
  match stamps with
  | [] => (st, [])
  | now :: rest =>
      let (st1, o1) := recordEvent now st in
      let (st2, o2) := record_all rest st1 in
      (st2, o1 ++ o2)
  end.

Fixpoint evaluate_all (calls : list (time_t * Z)) (st : BurstState)
  : BurstState * list Output :=
  match calls with
  | [] => (st, [])
  | (now, rc) :: rest =>
      let (st1, o1) := evaluateAndFire now rc st in
      let (st2, o2) := evaluate_all rest st1 in
      (st2, o1 ++ o2)
  end.

(** The burst follows a run of stamps: it starts at the first and ends at the
    last. *)
Definition burst_tracks (stamps : list time_t) (st : BurstState) : bool :=
  (timeSig st =? hd 0 stamps) && (timeSigLast st =? last stamps 0).

Fixpoint nondecreasing (stamps : list time_t) : bool :=
  match stamps with
  | a :: (b :: _) as rest => (a <=? b) && nondecreasing rest
  | _ => true
  end.

(** The two operations as one type, for statements about any of them. *)
Inductive Op : Type :=
| OpRecord (now : time_t)
| OpEvaluate (now : time_t) (rc : Z).

Definition apply_op (op : Op) (st : BurstState) : BurstState :=
  match op with
  | OpRecord now => fst (recordEvent now st)
  | OpEvaluate now rc => fst (evaluateAndFire now rc st)
  end.

(** What an operation may be given: a clock reading, and for a recorded event
    one that is not before the latest recorded one. *)
Definition op_admissible (op : Op) (st : BurstState) : Prop :=
  match op with
  | OpRecord now => time_range now /\ timeSigLast st <= now
  | OpEvaluate now _ => time_range now
  end.

(** The two invariants of the burst state, 0 standing for "unset". *)
Definition BurstInv (st : BurstState) : Prop :=
  (timeSig st = 0 <-> timeSigLast st = 0) /\
  (timeSig st <> 0 -> timeSigLast st <> 0 -> timeSig st <= timeSigLast st).

Definition stamps_in_range (st : BurstState) : Prop :=
  time_range (timeSig st) /\ time_range (timeSigLast st).

(** ** The two threads *)

Inductive Thread : Type := ThTicker | ThMain.

(** Where the ticker thread stands (lines 117-162). *)
Inductive TickerPc : Type :=
| TLoop                       (* 119: while (!done) *)
| TSleeping (wake : Z)        (* 121: inside Sleep(5000), until the clock reads [wake] *)
| TTestSig                    (* 123: if (!timeSig) continue *)
| TReadNow                    (* 126: now = time(nullptr) *)
| TTestAge (now : time_t)     (* 128: if (now - timeSig < 60) *)
| TTestIdle (now : time_t)    (* 130: if (now - timeSigLast < 5) continue *)
| TLock                       (* 141: lock_guard lock(muxSig) *)
| TLog                        (* 142-154: dateBuf from timeSig, log line *)
| TSystem (stamp : time_t)    (* 156: _wsystem is called *)
| TRunning (stamp : time_t)   (* 156-157: the batch file runs; its return, the warning *)
| TReset1                     (* 159: timeSig = 0 *)
| TReset2                     (* 160: timeSigLast = 0 *)
| TUnlock                     (* 161: end of the lock's scope *)
| TExit.                      (* 162: the lambda returns *)

(** Where the main thread stands (lines 164-190). *)
Inductive RecorderPc : Type :=
| RWait                       (* 166: WaitForSingleObject(h, INFINITE) *)
| RLock                       (* 167: lock_guard lock(muxSig) *)
| RNow                        (* 168: now = time(nullptr) *)
| RLog (now : time_t)         (* 170-182: dateBuf from now, log line *)
| RSetFirst (now : time_t)    (* 183-184: if (!timeSig) timeSig = now *)
| RSetLast (now : time_t)     (* 185: timeSigLast = now *)
| RUnlock                     (* 186: end of the lock's scope *)
| RFindNext                   (* 187: while (FindNextChangeNotification(h)) *)
| RStop                       (* 189: done = true *)
| RJoin                       (* 190: thd.join() *)
| RReturn.                    (* 191 *)

Record Sys : Type := mkSys {
  clock : Z;                  (* what time(nullptr) returns now *)
  burst : BurstState;         (* 114-115 *)
  done : bool;                (* 112 *)
  muxSig : option Thread;     (* 113: the owner, if locked *)
  tpc : TickerPc;
  rpc : RecorderPc;
  out : list Output           (* everything written or run so far, oldest first *)
}.

Definition set_clock (c : Z) (s : Sys) : Sys :=
  mkSys c (burst s) (done s) (muxSig s) (tpc s) (rpc s) (out s).
Definition set_burst (b : BurstState) (s : Sys) : Sys :=
  mkSys (clock s) b (done s) (muxSig s) (tpc s) (rpc s) (out s).
Definition set_done (d : bool) (s : Sys) : Sys :=
  mkSys (clock s) (burst s) d (muxSig s) (tpc s) (rpc s) (out s).
Definition set_mux (m : option Thread) (s : Sys) : Sys :=
  mkSys (clock s) (burst s) (done s) m (tpc s) (rpc s) (out s).
Definition set_tpc (p : TickerPc) (s : Sys) : Sys :=
  mkSys (clock s) (burst s) (done s) (muxSig s) p (rpc s) (out s).
Definition set_rpc (p : RecorderPc) (s : Sys) : Sys :=
  mkSys (clock s) (burst s) (done s) (muxSig s) (tpc s) p (out s).
Definition emit (o : Output) (s : Sys) : Sys :=
  mkSys (clock s) (burst s) (done s) (muxSig s) (tpc s) (rpc s) (out s ++ [o]).
Definition emit_all (os : list Output) (s : Sys) : Sys :=
  mkSys (clock s) (burst s) (done s) (muxSig s) (tpc s) (rpc s) (out s ++ os).

(** One statement of the ticker thread; [None] when it cannot run yet (still
    asleep, mutex taken) or has returned.  [rc] is the batch file's exit
    status, read only by the statement that returns from [_wsystem]. *)
Definition ticker_step (rc : Z) (s : Sys) : option Sys :=
  match tpc s with
  | TLoop =>
      Some (set_tpc (if done s then TExit else TSleeping (clock s + pollInterval)) s)
  | TSleeping wake =>
      if wake <=? clock s then Some (set_tpc TTestSig s) else None
  | TTestSig =>
      Some (set_tpc (if timeSig (burst s) =? 0 then TLoop else TReadNow) s)
  | TReadNow =>
      Some (set_tpc (TTestAge (clock s)) s)
  | TTestAge now =>
      Some (set_tpc (if time_sub now (timeSig (burst s)) <? maxWindow
                     then TTestIdle now else TLock) s)
  | TTestIdle now =>
      Some (set_tpc (if time_sub now (timeSigLast (burst s)) <? quietPeriod
                     then TLoop else TLock) s)
  | TLock =>
      match muxSig s with
      | None => Some (set_tpc TLog (set_mux (Some ThTicker) s))
      | Some _ => None
      end
  | TLog =>
      let stamp := timeSig (burst s) in
      Some (set_tpc (TSystem stamp) (emit (LogDetected stamp) s))
  | TSystem stamp =>
      Some (set_tpc (TRunning stamp) (emit RunBat s))
  | TRunning stamp =>
      Some (set_tpc TReset1 (if rc =? 0 then s else emit (WarnNonZero stamp) s))
  | TReset1 =>
      Some (set_tpc TReset2 (set_burst (mkBurst 0 (timeSigLast (burst s))) s))
  | TReset2 =>
      Some (set_tpc TUnlock (set_burst (mkBurst (timeSig (burst s)) 0) s))
  | TUnlock =>
      Some (set_tpc TLoop (set_mux None s))
  | TExit => None
  end.

(** One statement of the main thread.  [ok] is the result of the Win32 call
    on the handle, when the statement is one: the wait's result is discarded
    (line 166), [FindNextChangeNotification]'s decides the loop (line 187). *)
Definition recorder_step (ok : bool) (s : Sys) : option Sys :=
  match rpc s with
  | RWait => Some (set_rpc RLock s)
  | RLock =>
      match muxSig s with
      | None => Some (set_rpc RNow (set_mux (Some ThMain) s))
      | Some _ => None
      end
  | RNow => Some (set_rpc (RLog (clock s)) s)
  | RLog now => Some (set_rpc (RSetFirst now) (emit (LogRaw now) s))
  | RSetFirst now =>
      Some (set_rpc (RSetLast now)
              (if timeSig (burst s) =? 0
               then set_burst (mkBurst now (timeSigLast (burst s))) s else s))
  | RSetLast now =>
      Some (set_rpc RUnlock (set_burst (mkBurst (timeSig (burst s)) now) s))
  | RUnlock => Some (set_rpc RFindNext (set_mux None s))
  | RFindNext => Some (set_rpc (if ok then RWait else RStop) s)
  | RStop => Some (set_rpc RJoin (set_done true s))
  | RJoin =>
      match tpc s with
      | TExit => Some (set_rpc RReturn s)
      | _ => None
      end
  | RReturn => None
  end.

(** A schedule: who moves next, and what the world answers. *)
Inductive Move : Type :=
| Elapse (secs : nat)     (* the clock advances *)
| Ticker (rc : Z)         (* the ticker thread runs its next statement *)
| Recorder (ok : bool).   (* the main thread runs its next statement *)

Definition step (m : Move) (s : Sys) : option Sys :=
  match m with
  | Elapse secs => Some (set_clock (clock s + Z.of_nat secs) s)
  | Ticker rc => ticker_step rc s
  | Recorder ok => recorder_step ok s
  end.

Fixpoint run (ms : list Move) (s : Sys) : option Sys :=
  match ms with
  | [] => Some s
  | m :: rest =>
      match step m s with
      | Some s' => run rest s'
      | None => None
      end
  end.

(** [monitor] is entered at clock reading [t0] (lines 112-117). *)
Definition boot (t0 : Z) : Sys := mkSys t0 noBurst false None TLoop RWait [].

(** The statements each thread executes with [muxSig] held. *)
Definition ticker_holds (p : TickerPc) : bool :=
  match p with
  | TLog | TSystem _ | TRunning _ | TReset1 | TReset2 | TUnlock => true
  | _ => false
  end.

Definition recorder_holds (p : RecorderPc) : bool :=
  match p with
  | RNow | RLog _ | RSetFirst _ | RSetLast _ | RUnlock => true
  | _ => false
  end.

Definition recorder_stopped (p : RecorderPc) : bool :=
  match p with RJoin | RReturn => true | _ => false end.

(** What the ticker has already reset when it stands between the resets and
    the unlock. *)
Definition reset_progress (p : TickerPc) (b : BurstState) : Prop :=
  match p with
  | TReset2 => timeSig b = 0
  | TUnlock => b = noBurst
  | _ => True
  end.

(** What holds of every state the two threads can reach. *)
Record sys_inv (s : Sys) : Prop := {
  inv_mux :
    muxSig s = if ticker_holds (tpc s) then Some ThTicker
               else if recorder_holds (rpc s) then Some ThMain else None;
  inv_excl : ticker_holds (tpc s) && recorder_holds (rpc s) = false;
  inv_done : done s = recorder_stopped (rpc s);
  inv_exit : tpc s = TExit -> done s = true;
  inv_reset : reset_progress (tpc s) (burst s)
}.

(** The statements of one uninterrupted pass of the main thread's loop body,
    from taking the mutex to releasing it (lines 167-186). *)
Definition recorder_pass (ok : bool) : list Move := repeat (Recorder ok) 6.

(** How many statements one pass of the ticker's loop body takes, from the
    test of line 123 back to the loop head. *)
Definition ticker_pass_steps (now : time_t) (st : BurstState) : nat :=
  if timeSig st =? 0 then 1
  else if time_sub now (timeSig st) <? maxWindow then
    if time_sub now (timeSigLast st) <? quietPeriod then 4 else 11
  else 10.

Definition ticker_pass (rc : Z) (now : time_t) (st : BurstState) : list Move :=
  repeat (Ticker rc) (ticker_pass_steps now st).

(** How many statements the ticker still executes with [muxSig] held, up to
    and including the unlock. *)
Definition ticker_release_steps (p : TickerPc) : nat :=
  match p with
  | TLog => 6
  | TSystem _ => 5
  | TRunning _ => 4
  | TReset1 => 3
  | TReset2 => 2
  | TUnlock => 1
  | _ => 0
  end.

(** The main thread's last statements when the handle fails: the wait
    returns; a fire in progress, if any, completes with status [rc] and
    releases the mutex; the loop body runs once more;
    [FindNextChangeNotification] returns FALSE (lines 166-187). *)
Definition source_failure (rc : Z) (p : TickerPc) : list Move :=
  Recorder false
  :: repeat (Ticker rc) (ticker_release_steps p)
  ++ recorder_pass false ++ [Recorder false].

Definition ticker_exited (p : TickerPc) : bool :=
  match p with TExit => true | _ => false end.

(** A schedule in which the batch file runs for ten seconds and a change
    arrives two seconds into the run.  [monitor] starts at clock reading
    1000 and a first change is stamped at once. *)
Definition scenarioC_arrival : list Move :=
  Recorder true :: recorder_pass true   (* the change at 1000 is stamped *)
  ++ [Recorder true;                    (* FindNextChangeNotification succeeds *)
      Ticker 0;                         (* the ticker sleeps until 1005 *)
      Elapse 5]
  ++ repeat (Ticker 0) 8                (* it wakes: idle 5, locks, logs, calls _wsystem *)
  ++ [Elapse 2;
      Recorder true].                   (* a change at 1007: the wait returns *)

Definition scenarioC_rest : list Move :=
  Elapse 8                              (* the batch file returns at 1015 *)
  :: repeat (Ticker 0) 4                (* lines 157-161 *)
  ++ recorder_pass true.                (* lines 167-186 *)

(** A schedule in which the ticker wakes while the main thread is between
    lines 184 and 185.  [monitor] starts at clock reading 1000. *)
Definition torn_evaluation : list Move :=
  [Ticker 0; Elapse 5;                  (* asleep until 1005 *)
   Recorder true]                       (* a change at 1005: the wait returns *)
  ++ repeat (Recorder true) 4           (* lines 167-184: timeSig = 1005 *)
  ++ repeat (Ticker 0) 5.               (* lines 121-130 *)

Definition torn_completion : list Move :=
  repeat (Recorder true) 2              (* lines 185-186 *)
  ++ repeat (Ticker 0) 3.               (* lines 141-156 *)

(** The batch file returns [rc] after [d1] more seconds and the ticker
    finishes its pass; the main thread, which was waiting for the mutex,
    takes it, and reads the clock [d2] seconds later (lines 156-161, then
    167-186). *)
Definition finish_then_record (rc : Z) (ok : bool) (d1 d2 : nat) : list Move :=
  Elapse d1 :: repeat (Ticker rc) 4
  ++ Recorder ok :: Elapse d2 :: repeat (Recorder ok) 5.

(** A list of operations, each admissible in the state it is applied to. *)
Fixpoint ops_admissible (ops : list Op) (st : BurstState) : Prop :=
  match ops with
  | [] => True
  | op :: rest => op_admissible op st /\ ops_admissible rest (apply_op op st)
  end.

Definition apply_ops (ops : list Op) (st : BurstState) : BurstState :=
  fold_left (fun acc op => apply_op op acc) ops st.

(** ** Wide strings *)

(** [std::wstring]: a sequence of 16-bit code units.  [size_t] is the 64-bit
    unsigned integer of the x64 build, [npos] its largest value. *)
Definition wchar_t : Type := N.
Definition wstring : Type := list wchar_t.
Definition size_t : Type := Z.

Definition size_wrap (z : Z) : size_t := z mod 18446744073709551616.
Definition npos : size_t := 18446744073709551615.

Arguments size_wrap : simpl never.

Definition wlen (s : wstring) : size_t := Z.of_nat (length s).

Definition space : wchar_t := 32%N.

Arguments N.eqb : simpl never.

(** What a call returns: a value, or the [std::out_of_range] that
    [wstring::substr] and [wstring::at] throw; [Timeout] is the model's own,
    for a loop cut short by its step bound. *)
Inductive result (A : Type) : Type :=
| Ok (a : A)
| OutOfRange
| Timeout.

Arguments Ok {A} a.
Arguments OutOfRange {A}.
Arguments Timeout {A}.

(** The index of the first element that satisfies [p]. *)
Fixpoint index_where (p : wchar_t -> bool) (s : wstring) : option nat :=
  match s with
  | [] => None
  | c :: rest => if p c then Some O else option_map S (index_where p rest)
  end.

(** [s.find_first_of(c, pos)] and [s.find_first_not_of(c, pos)]: the first
    index at or after [pos] whose character is (is not) [c], or [npos]. *)
Definition find_from (p : wchar_t -> bool) (s : wstring) (pos : size_t) : size_t :=
  if wlen s <=? pos then npos
  else match index_where p (skipn (Z.to_nat pos) s) with
       | Some k => pos + Z.of_nat k
       | None => npos
       end.

Definition find_first_of (s : wstring) (c : wchar_t) (pos : size_t) : size_t :=
  find_from (N.eqb c) s pos.

Definition find_first_not_of (s : wstring) (c : wchar_t) (pos : size_t) : size_t :=
  find_from (fun x => negb (N.eqb c x)) s pos.

(** [s.substr(pos, count)]: throws when [pos > size()], and otherwise returns
    the [min(count, size() - pos)] characters from [pos]. *)
Definition substr (s : wstring) (pos count : size_t) : result wstring :=
  if wlen s <? pos then OutOfRange
  else Ok (firstn (Z.to_nat (Z.min count (wlen s - pos))) (skipn (Z.to_nat pos) s)).

(** ** Word wrapping (lines 11-46) *)

(** Lines 11-23.  [lines] is the vector, oldest line first; [lines.back()] is
    its last element (the vector is never empty where [split] calls this). *)
Definition appendWord (lines : list wstring) (w : wstring) (width : size_t)
  : list wstring :=
  let back := last lines [] in
  if width <? size_wrap (size_wrap (wlen back + wlen w) + 1) then lines ++ [w]
  else
    let back1 := match back with [] => back | _ :: _ => back ++ [space] end in
    removelast lines ++ [back1 ++ w].

(** Lines 35-40: the loop, cut after [fuel] passes; it returns [res], [prev]
    and [next] as they stand when [next == npos]. *)
Fixpoint split_loop (fuel : nat) (s : wstring) (width : size_t)
  (res : list wstring) (prev next : size_t)
  : result (list wstring * size_t * size_t) :=
  if next =? npos then Ok (res, prev, next)
  else
    match fuel with
    | O => Timeout
    | S fuel' =>
        match substr s prev (size_wrap (next - prev)) with
        | Ok w =>
            let res' := appendWord res w width in
            let prev' := find_first_not_of s space next in
            let next' := find_first_of s space prev' in
            split_loop fuel' s width res' prev' next'
        | OutOfRange => OutOfRange
        | Timeout => Timeout
        end
    end.

(** Lines 42-43, on what the loop returns. *)
Definition split_finish (s : wstring) (width : size_t)
  (r : result (list wstring * size_t * size_t)) : result (list wstring) :=
  match r with
  | Ok (res, prev, next) =>
      if prev =? next then Ok res
      else
        match substr s prev (size_wrap (next - prev)) with
        | Ok w => Ok (appendWord res w width)
        | OutOfRange => OutOfRange
        | Timeout => Timeout
        end
  | OutOfRange => OutOfRange
  | Timeout => Timeout
  end.

(** Lines 26-46.  The loop is given one pass per character of [s], and one
    more. *)
Definition split (s : wstring) (width : size_t) : result (list wstring) :=
  if wlen s <? width then Ok [s]
  else
    split_finish s width
      (split_loop (S (length s)) s width [[]] 0 (find_first_of s space 0)).

(** The code units of a narrow literal. *)
Fixpoint wstr (s : String.string) : wstring :=
  match s with
  | String.EmptyString => []
  | String.String c rest => N_of_ascii c :: wstr rest
  end.

(** The maximal runs of characters other than spaces, in order. *)
Definition flush (cur : wstring) : list wstring :=
  match cur with [] => [] | _ :: _ => [cur] end.

Fixpoint words_go (cur : wstring) (s : wstring) : list wstring :=
  match s with
  | [] => flush cur
  | c :: rest =>
      if N.eqb space c then flush cur ++ words_go [] rest
      else words_go (cur ++ [c]) rest
  end.

Definition words (s : wstring) : list wstring := words_go [] s.

(** [s] cut at its first space: what precedes it, and the rest from the space
    on. *)
Fixpoint span_word (s : wstring) : wstring * wstring :=
  match s with
  | [] => ([], [])
  | c :: rest =>
      if N.eqb space c then ([], s)
      else let (w, r) := span_word rest in (c :: w, r)
  end.

(** The words [split] hands to [appendWord]: what precedes the first space,
    even if empty, then the words of the rest. *)
Definition tokens (s : wstring) : list wstring :=
  fst (span_word s) :: words (snd (span_word s)).

Definition wrap_tokens (toks : list wstring) (width : size_t) (res : list wstring)
  : list wstring :=
  fold_left (fun r w => appendWord r w width) toks res.

(** Words joined by single spaces. *)
Fixpoint unwords (ws : list wstring) : wstring :=
  match ws with
  | [] => []
  | [w] => w
  | w :: rest => w ++ space :: unwords rest
  end.

(** [s] without its leading spaces. *)
Fixpoint skip_spaces (s : wstring) : wstring :=
  match s with
  | [] => []
  | c :: rest => if N.eqb space c then skip_spaces rest else s
  end.

Definition spaceless (w : wstring) : Prop := ~ In space w.

(** The characters of the tokens, and one more for each. *)
Fixpoint total_len (toks : list wstring) : Z :=
  match toks with
  | [] => 0
  | w :: rest => wlen w + 1 + total_len rest
  end.

(** Every word is a non-empty run without spaces. *)
Definition is_word (w : wstring) : Prop := spaceless w /\ w <> [].

(** The last line with [w] added (lines 19-21). *)
Definition join_word (back w : wstring) : wstring :=
  match back with [] => back | _ :: _ => back ++ [space] end ++ w.

(** A line keeps to the width unless it is one of the words given. *)
Definition line_fits (width : size_t) (allowed : list wstring) (l : wstring) : Prop :=
  wlen l <= width \/ In l allowed.

(** A line that is its own words joined by single spaces: no space leads,
    trails or follows another. *)
Definition single_spaced (l : wstring) : Prop := unwords (words l) = l.

(** ** The usage text (lines 49-74) *)

(** Lines 51-54. *)
Definition rawString : wstring :=
  wstr (String.append
    "DirMon is a utility to watch changes in a directory using a change notification handle created with FindFirstChangeNotificationW(). "%string
    (String.append
    "It executes a batch file specified with the second argument when it receives a change notification. "%string
    "Multiple notifications received within less than 5 seconds intervals are handled as single notification so that it will not execute the batch file too often."%string)).

(** Lines 63-68. *)
Definition usage_banner : wstring := wstr "
File Monitor : Copyright (c) 2021 Junnosuke Yamazaki : 2021-05-29

Usage: DirMon <path_of_directory_to_watch> <action_bat>

"%string.

Definition newline : wchar_t := 10%N.

(** Lines 55-59.  [console] is [info.dwSize.X] when
    [GetConsoleScreenBufferInfo] succeeds, a SHORT converted to [size_t]. *)
Definition usage_width (console : option Z) : size_t :=
  match console with
  | Some x => size_wrap x
  | None => 80
  end.

(** Lines 61, 70-71: the lines written after the banner. *)
Definition usage_lines (console : option Z) : result (list wstring) :=
  split rawString (size_wrap (usage_width console - 1)).

(** Lines 61-73: everything written to [wcout]. *)
Definition printUsage (console : option Z) : result wstring :=
  match usage_lines console with
  | Ok lines =>
      Ok (usage_banner ++ concat (map (fun l => l ++ [newline]) lines) ++ [newline])
  | OutOfRange => OutOfRange
  | Timeout => Timeout
  end.

(** ** The command line (lines 204-245) *)

Definition backslash : wchar_t := 92%N.
Definition dot : wchar_t := 46%N.
Definition letter_a : wchar_t := 97%N.
Definition letter_b : wchar_t := 98%N.
Definition letter_t : wchar_t := 116%N.

(** [s.at(pos)]: throws when [pos >= size()]. *)
Definition at_ (s : wstring) (pos : size_t) : result wchar_t :=
  if pos <? wlen s then
    match nth_error s (Z.to_nat pos) with
    | Some c => Ok c
    | None => OutOfRange
    end
  else OutOfRange.

(** [s[pos]], unchecked; the code reads it at positions below [size()]. *)
Definition char_at (s : wstring) (pos : size_t) : wchar_t :=
  nth (Z.to_nat pos) s 0%N.

(** Lines 217-219: the loop that drops trailing backslashes, cut after [fuel]
    passes. *)
Fixpoint strip_loop (fuel : nat) (path : wstring) : result wstring :=
  match path with
  | [] => Ok path
  | _ :: _ =>
      match at_ path (size_wrap (wlen path - 1)) with
      | Ok ch =>
          if N.eqb ch backslash then
            match fuel with
            | O => Timeout
            | S fuel' =>
                match substr path 0 (size_wrap (wlen path - 1)) with
                | Ok shorter => strip_loop fuel' shorter
                | OutOfRange => OutOfRange
                | Timeout => Timeout
                end
            end
          else Ok path
      | OutOfRange => OutOfRange
      | Timeout => Timeout
      end
  end.

(** The loop is given one pass per character. *)
Definition strip_backslashes (path : wstring) : result wstring :=
  strip_loop (length path) path.

Definition ends_with_backslash (path : wstring) : Prop :=
  exists front, path = front ++ [backslash].

(** The lines of [dateBuf] handling (145-152 and 173-180): the first carriage
    return or line feed of the array becomes a terminator. *)
Definition carriage_return : wchar_t := 13%N.
Definition nul : wchar_t := 0%N.

Fixpoint chomp (buf : wstring) : wstring :=
  match buf with
  | [] => []
  | ch :: rest =>
      if N.eqb ch carriage_return || N.eqb ch newline then nul :: rest
      else ch :: chomp rest
  end.

(** The string an array holds: what precedes its first terminator. *)
Fixpoint c_str (buf : wstring) : wstring :=
  match buf with
  | [] => []
  | ch :: rest => if N.eqb ch nul then [] else ch :: c_str rest
  end.

(** What precedes the first line break. *)
Fixpoint first_line (s : wstring) : wstring :=
  match s with
  | [] => []
  | ch :: rest =>
      if N.eqb ch carriage_return || N.eqb ch newline then []
      else ch :: first_line rest
  end.

Section CommandLine.

(** The C runtime's [towlower], and the two Win32 calls whose failure ends
    the program: whether [FindFirstFileW] (line 197) and
    [FindFirstChangeNotificationW] (line 235) return a valid handle. *)
Variable towlower : wchar_t -> wchar_t.
Variable FindFirstFileW : wstring -> bool.
Variable FindFirstChangeNotificationW : wstring -> bool.

(** Lines 227-230: the condition under which the second argument is
    refused. *)
Definition not_bat_file (batPath : wstring) : bool :=
let batPathLen := wlen batPath in
if batPathLen <? 4 then true
else if negb (N.eqb (char_at batPath (size_wrap (batPathLen - 4))) dot) then true
else if negb (N.eqb (towlower (char_at batPath (size_wrap (batPathLen - 3)))) letter_b)
then true
else if negb (N.eqb (towlower (char_at batPath (size_wrap (batPathLen - 2)))) letter_a)
then true
else negb (N.eqb (towlower (char_at batPath (size_wrap (batPathLen - 1)))) letter_t).

(** What [fatalError] writes to [wcerr] before [exit] (lines 77-107). *)
Inductive Fatal : Type :=
| TooFewArguments             (* line 213 *)
| NotABatFile                 (* line 231 *)
| LastError.                  (* lines 86-104: the system's text for GetLastError(), if any *)

Inductive Action : Type :=
| Usage (text : wstring)              (* line 208 *)
| Complain (what : Fatal)             (* lines 79, 100 *)
| LogStart (path : wstring)           (* line 239 *)
| Monitor (path batPath : wstring).   (* line 240 *)

Inductive Ending : Type :=
| Return (code : Z)           (* wmain returns, once monitor has *)
| Exit (code : Z)             (* exit(code), from fatalError *)
| Throw.                      (* an exception leaves wmain *)

(** Lines 204-245; [argc] is the length of [argv]. *)
Definition wmain (console : option Z) (argv : list wstring)
  : list Action * Ending :=
  let argc := Z.of_nat (length argv) in
  if argc =? 1 then
    match printUsage console with
    | Ok text => ([Usage text], Return 0)
    | _ => ([], Throw)
    end
  else if argc <? 3 then ([Complain TooFewArguments], Exit 1)
  else
    match strip_backslashes (nth 1 argv []) with
    | Ok path =>
        if negb (FindFirstFileW path) then ([Complain LastError], Exit 1)
        else
          let batPath := nth 2 argv [] in
          if not_bat_file batPath then ([Complain NotABatFile], Exit 1)
          else if negb (FindFirstFileW batPath) then ([Complain LastError], Exit 1)
          else if negb (FindFirstChangeNotificationW path)
          then ([Complain LastError], Exit 1)
          else ([LogStart path; Monitor path batPath], Return 0)
    | _ => ([], Throw)
    end.

(** What [wmain] requires before it calls [monitor] on [path], the first
    argument as cleaned by lines 217-219: three entries or more (line 212),
    the directory found (221), the extension accepted (227-231), the batch
    file found (233), the notification handle obtained (235-237). *)
Definition can_monitor (argv : list wstring) (path : wstring) : bool :=
  (3 <=? Z.of_nat (length argv))
  && FindFirstFileW path
  && negb (not_bat_file (nth 2 argv []))
  && FindFirstFileW (nth 2 argv [])
  && FindFirstChangeNotificationW path.

End CommandLine.

(** A command line: the program, a directory with a trailing backslash, a
    batch file. *)
Definition example_argv : list wstring :=
  [wstr "DirMon"%string; wstr "src"%string ++ [backslash]; wstr "go.bat"%string].

(** ** Shutdown and pacing of the ticker *)

(** The moves of a shutdown that finds the ticker asleep: [done = true] (line
    189); the sleep ends [d] seconds later; the ticker runs one more pass,
    at clock reading [now] on the stamps [st], and finds [done] set at the
    loop head; [join] returns (line 190). *)
Definition shutdown (rc : Z) (ok : bool) (d : nat) (now : time_t)
  (st : BurstState) : list Move :=
  [Recorder ok; Elapse d; Ticker rc]
  ++ ticker_pass rc now st
  ++ [Ticker rc; Recorder ok].

(** How many times the batch file has been run. *)
Definition runs (s : Sys) : nat := length (filter is_RunBat (out s)).

(** The ticker is not inside a pass, and cannot start one before the clock
    reads [c0 + pollInterval]. *)
Definition resting (c0 : Z) (p : TickerPc) : Prop :=
  match p with
  | TLoop | TExit => True
  | TSleeping wake => c0 + pollInterval <= wake
  | _ => False
  end.

(** Since the ticker stood at the loop head at clock reading [c0] with [n0]
    runs behind it: either the poll interval has passed, or the ticker is
    still resting and has run nothing more. *)
Definition paced (c0 : Z) (n0 : nat) (s : Sys) : Prop :=
  c0 <= clock s /\
  (c0 + pollInterval <= clock s \/ (runs s = n0 /\ resting c0 (tpc s))).

(** ** Proof steps *)

(** Runs a schedule on a state whose program counters are known, leaving the
    time arithmetic folded. *)
Ltac run_steps :=
  cbv [run repeat step ticker_step recorder_step
       set_clock set_burst set_done set_mux set_tpc set_rpc emit emit_all
       clock burst done muxSig tpc rpc out timeSig timeSigLast fst snd fire].

Ltac split_tests :=
  repeat match goal with
    | |- context [if ?x =? ?y then _ else _] => destruct (x =? y)
    | |- context [if ?x <? ?y then _ else _] => destruct (x <? y)
    | |- context [if ?b then _ else _] => is_var b; destruct b
    end;
  cbn in *; try congruence.

(** ** time_t arithmetic *)

Lemma wrap64_small (z : Z) :
  - 9223372036854775808 <= z < 9223372036854775808 -> wrap64 z = z.
Proof.
  intros Hz. unfold wrap64.
  rewrite Z.mod_small by lia. lia.
Qed.

Lemma time_sub_exact (a b : time_t) :
  time_range a -> time_range b -> time_sub a b = a - b.
Proof.
  unfold time_range, time_sub. intros Ha Hb.
  apply wrap64_small. lia.
Qed.

(** ** The coalescer operations *)

Lemma fired_fire (rc : Z) (st : BurstState) : fired (fire rc st) = true.
Proof. reflexivity. Qed.

Lemma fired_idle (st : BurstState) : fired (st, []) = false.
Proof. reflexivity. Qed.

Lemma evaluateAndFire_unset (now : time_t) (rc : Z) (st : BurstState) :
  timeSig st = 0 -> evaluateAndFire now rc st = (st, []).
Proof.
  intros H. unfold evaluateAndFire. rewrite H. reflexivity.
Qed.

Lemma evaluateAndFire_cases (now : time_t) (rc : Z) (st : BurstState) :
  evaluateAndFire now rc st = (st, []) \/ evaluateAndFire now rc st = fire rc st.
Proof.
  unfold evaluateAndFire.
  destruct (timeSig st =? 0); [now left|].
  destruct (time_sub now (timeSig st) <? maxWindow); [|now right].
  destruct (time_sub now (timeSigLast st) <? quietPeriod); [now left|now right].
Qed.

Lemma evaluate_all_unset (calls : list (time_t * Z)) (st : BurstState) :
  timeSig st = 0 -> evaluate_all calls st = (st, []).
Proof.
  intros H. induction calls as [|[now rc] rest IH]; simpl.
  - reflexivity.
  - rewrite (evaluateAndFire_unset now rc st H), IH. reflexivity.
Qed.

Lemma record_all_keeps_start (stamps : list time_t) (st : BurstState) :
  timeSig st <> 0 -> timeSig (fst (record_all stamps st)) = timeSig st.
Proof.
  revert st. induction stamps as [|now rest IH]; intros st Hset; simpl.
  - reflexivity.
  - destruct (Z.eqb_spec (timeSig st) 0) as [E|_]; [contradiction|].
    specialize (IH (mkBurst (timeSig st) now) Hset).
    destruct (record_all rest (mkBurst (timeSig st) now)) as [st2 o2].
    exact IH.
Qed.

Lemma last_cons_default {A : Type} (l : list A) (a d : A) :
  last (a :: l) d = last l a.
Proof.
  revert a d. induction l as [|b l IH]; intros a d.
  - reflexivity.
  - change (last (a :: b :: l) d) with (last (b :: l) d).
    rewrite (IH b d), (IH b a). reflexivity.
Qed.

Lemma record_all_last (stamps : list time_t) (st : BurstState) :
  timeSigLast (fst (record_all stamps st)) = last stamps (timeSigLast st).
Proof.
  revert st. induction stamps as [|now rest IH]; intros st.
  - reflexivity.
  - cbn [record_all recordEvent].
    specialize (IH (mkBurst (if timeSig st =? 0 then now else timeSig st) now)).
    destruct (record_all rest _) as [st2 o2]. cbn [fst] in *.
    rewrite IH. cbn [timeSigLast].
    symmetry. apply last_cons_default.
Qed.

(** C1. For an [evaluateAndFire] pass over a pending burst ([timeSig] not 0),
    with age = now - timeSig and idle = now - timeSigLast: the batch file is
    run if and only if age >= 60 or idle >= 5; when age < 60 and idle < 5 the
    pass changes nothing and runs nothing.  The quiet period is 5 seconds and
    the maximum window 60. *)
Theorem evaluateAndFire_fires_iff (now : time_t) (rc : Z) (st : BurstState) :
  time_range now -> stamps_in_range st -> timeSig st <> 0 ->
  quietPeriod = 5 /\ maxWindow = 60 /\
  (fired (evaluateAndFire now rc st) = true <->
     maxWindow <= now - timeSig st \/ quietPeriod <= now - timeSigLast st) /\
  (now - timeSig st < maxWindow -> now - timeSigLast st < quietPeriod ->
     evaluateAndFire now rc st = (st, [])).
Proof.
  intros Hnow [Hs Hl] Hset.
  split; [reflexivity|]. split; [reflexivity|].
  unfold evaluateAndFire.
  rewrite (time_sub_exact _ _ Hnow Hs), (time_sub_exact _ _ Hnow Hl).
  destruct (Z.eqb_spec (timeSig st) 0) as [E|_]; [contradiction|].
  destruct (Z.ltb_spec (now - timeSig st) maxWindow) as [Hage|Hage];
    [destruct (Z.ltb_spec (now - timeSigLast st) quietPeriod) as [Hidle|Hidle]|].
  - split; [|reflexivity].
    rewrite fired_idle. split; [discriminate|lia].
  - split; [|lia].
    rewrite fired_fire. split; [right; exact Hidle|reflexivity].
  - split; [|lia].
    rewrite fired_fire. split; [left; exact Hage|reflexivity].
Qed.

Lemma evaluateAndFire_fires_iff_witness :
  fired (evaluateAndFire 1010 0 (mkBurst 1000 1004)) = true <->
  maxWindow <= 1010 - 1000 \/ quietPeriod <= 1010 - 1004.
Proof.
  refine (proj1 (proj2 (proj2
    (evaluateAndFire_fires_iff 1010 0 (mkBurst 1000 1004) _ _ _)))).
  - unfold time_range. lia.
  - unfold stamps_in_range, time_range. simpl. lia.
  - simpl. lia.
Defined.

(** C2, as the specification states it, fails: the stamps 0, 5 are
    nondecreasing, the first call's stamp is 0, and the burst starts at 5. *)
Lemma record_all_zero_first_stamp :
  nondecreasing [0; 5] = true /\
  fst (record_all [0; 5] noBurst) = mkBurst 5 5 /\
  burst_tracks [0; 5] (fst (record_all [0; 5] noBurst)) = false.
Proof. repeat split. Qed.

(** C2, amended.  For every run of [recordEvent] passes that starts with no
    pending burst (the initial state, or the state a fire leaves) and whose
    first stamp is not 0, whatever the order of the stamps: afterwards
    [timeSig] is the first stamp and [timeSigLast] the latest; and each pass
    sets [timeSig] to its stamp only when it is 0, and [timeSigLast] always. *)
Theorem record_all_tracks_burst (t1 : time_t) (rest : list time_t) (st : BurstState) :
  timeSig st = 0 -> t1 <> 0 ->
  burst_tracks (t1 :: rest) (fst (record_all (t1 :: rest) st)) = true /\
  timeSig (fst (record_all (t1 :: rest) st)) = t1 /\
  timeSigLast (fst (record_all (t1 :: rest) st)) = last (t1 :: rest) 0 /\
  (forall now st',
     timeSig (fst (recordEvent now st'))
       = (if timeSig st' =? 0 then now else timeSig st') /\
     timeSigLast (fst (recordEvent now st')) = now).
Proof.
  intros Hunset Hnz.
  assert (Hstart : timeSig (fst (record_all (t1 :: rest) st)) = t1).
  { cbn [record_all recordEvent]. rewrite Hunset. cbn [Z.eqb].
    pose proof (record_all_keeps_start rest (mkBurst t1 t1) Hnz) as K.
    destruct (record_all rest (mkBurst t1 t1)) as [st2 o2]. exact K. }
  assert (Hlast : timeSigLast (fst (record_all (t1 :: rest) st))
                  = last (t1 :: rest) 0).
  { rewrite record_all_last, !last_cons_default. reflexivity. }
  split; [|split; [exact Hstart|split; [exact Hlast|]]].
  - unfold burst_tracks. rewrite Hstart, Hlast. cbn [hd].
    rewrite !Z.eqb_refl. reflexivity.
  - intros now st'. split; reflexivity.
Qed.

Lemma record_all_tracks_burst_witness :
  burst_tracks [1000; 1002; 1004] (fst (record_all [1000; 1002; 1004] noBurst)) = true.
Proof.
  refine (proj1 (record_all_tracks_burst 1000 [1002; 1004] noBurst _ _)).
  - reflexivity.
  - lia.
Defined.

Lemma recordEvent_preserves (now : time_t) (st : BurstState) :
  BurstInv st -> stamps_in_range st -> time_range now -> timeSigLast st <= now ->
  BurstInv (fst (recordEvent now st)) /\ stamps_in_range (fst (recordEvent now st)).
Proof.
  unfold BurstInv, stamps_in_range, time_range, recordEvent.
  intros [Hiff Hord] [Hs Hl] Hnow Hmono. cbn [fst timeSig timeSigLast].
  destruct (Z.eqb_spec (timeSig st) 0) as [E|N].
  - repeat split; lia.
  - assert (timeSigLast st <> 0) by (intros E; apply N, Hiff, E).
    specialize (Hord N H). repeat split; lia.
Qed.

Lemma evaluateAndFire_preserves (now : time_t) (rc : Z) (st : BurstState) :
  BurstInv st -> stamps_in_range st ->
  BurstInv (fst (evaluateAndFire now rc st)) /\
  stamps_in_range (fst (evaluateAndFire now rc st)).
Proof.
  intros Hinv Hrange.
  destruct (evaluateAndFire_cases now rc st) as [E|E]; rewrite E; cbn [fst fire].
  - split; assumption.
  - unfold BurstInv, stamps_in_range, time_range. cbn [timeSig timeSigLast].
    repeat split; lia.
Qed.

(** C4. Each operation on the burst state, [recordEvent] or [evaluateAndFire]
    whether it fires or not, preserves both invariants ([timeSig] is 0 exactly
    when [timeSigLast] is, and [timeSig <= timeSigLast] when both are set),
    for stamps that are clock readings and recorded in nondecreasing order. *)
Theorem operations_preserve_invariants (op : Op) (st : BurstState) :
  BurstInv st -> stamps_in_range st -> op_admissible op st ->
  BurstInv (apply_op op st) /\ stamps_in_range (apply_op op st).
Proof.
  intros Hinv Hrange Hadm. destruct op as [now|now rc]; cbn [apply_op].
  - destruct Hadm as [Hnow Hmono]. now apply recordEvent_preserves.
  - now apply evaluateAndFire_preserves.
Qed.

Lemma operations_preserve_invariants_witness :
  BurstInv (apply_op (OpRecord 1004) (mkBurst 1000 1002)) /\
  stamps_in_range (apply_op (OpRecord 1004) (mkBurst 1000 1002)).
Proof.
  apply (operations_preserve_invariants (OpRecord 1004) (mkBurst 1000 1002)).
  - unfold BurstInv. simpl. lia.
  - unfold stamps_in_range, time_range. simpl. lia.
  - unfold op_admissible, time_range. simpl. lia.
Defined.

(** From the initial state, the invariants hold after any list of admissible
    operations. *)
Lemma apply_ops_invariants (ops : list Op) (st : BurstState) :
  BurstInv st -> stamps_in_range st -> ops_admissible ops st ->
  BurstInv (apply_ops ops st) /\ stamps_in_range (apply_ops ops st).
Proof.
  revert st. induction ops as [|op rest IH]; intros st Hinv Hrange Hadm.
  - split; assumption.
  - destruct Hadm as [Hop Hrest]. cbn [apply_ops fold_left].
    destruct op as [now|now rc]; cbn [op_admissible apply_op] in *.
    + destruct Hop as [Hnow Hmono].
      destruct (recordEvent_preserves now st Hinv Hrange Hnow Hmono) as [Hi Hr].
      exact (IH _ Hi Hr Hrest).
    + destruct (evaluateAndFire_preserves now rc st Hinv Hrange) as [Hi Hr].
      exact (IH _ Hi Hr Hrest).
Qed.


(** C5. With no pending burst ([timeSig] is 0) an [evaluateAndFire] pass does
    not fire, and any number of passes in a row change nothing and run
    nothing. *)
Theorem evaluate_unset_is_noop (calls : list (time_t * Z)) (st : BurstState) :
  timeSig st = 0 ->
  (forall now rc, fired (evaluateAndFire now rc st) = false) /\
  (forall now rc, evaluateAndFire now rc st = (st, [])) /\
  evaluate_all calls st = (st, []).
Proof.
  intros Hunset. repeat split.
  - intros now rc. rewrite (evaluateAndFire_unset now rc st Hunset). reflexivity.
  - intros now rc. exact (evaluateAndFire_unset now rc st Hunset).
  - exact (evaluate_all_unset calls st Hunset).
Qed.

Lemma evaluate_unset_is_noop_witness :
  evaluate_all [(1005, 0); (1010, 1); (1015, 0)] noBurst = (noBurst, []).
Proof.
  refine (proj2 (proj2
    (evaluate_unset_is_noop [(1005, 0); (1010, 1); (1015, 0)] noBurst _))).
  reflexivity.
Defined.

(** C10. "No pending burst" is the stamp 0: a [recordEvent] pass with stamp 0
    and no burst pending leaves both fields 0, and the [evaluateAndFire]
    passes that follow cannot tell it from no event at all. *)
Theorem zero_stamp_event_is_invisible :
  fst (recordEvent 0 noBurst) = noBurst /\
  (forall calls : list (time_t * Z),
     evaluate_all calls (fst (recordEvent 0 noBurst)) = evaluate_all calls noBurst) /\
  (forall calls : list (time_t * Z),
     evaluate_all calls (fst (recordEvent 0 noBurst)) = (noBurst, [])).
Proof.
  split; [reflexivity|]. split; intros calls.
  - reflexivity.
  - apply evaluate_all_unset. reflexivity.
Qed.

(** ** The threads: what every reachable state satisfies *)

Lemma boot_inv (t0 : Z) : sys_inv (boot t0).
Proof. split; cbn; intros; try exact I; congruence. Qed.

Lemma ticker_step_preserves_inv (rc : Z) (s s' : Sys) :
  sys_inv s -> ticker_step rc s = Some s' -> sys_inv s'.
Proof.
  intros [Hmux Hexcl Hdone Hexit Hreset] Hstep.
  destruct s as [c [ts tl] d m tp rp o]. unfold ticker_step in Hstep.
  cbn in Hmux, Hexcl, Hdone, Hexit, Hreset, Hstep.
  destruct tp; cbn in Hstep, Hmux, Hexcl, Hreset;
    try discriminate;
    try (destruct (_ <=? _) in Hstep; [|discriminate]);
    try (destruct m; [discriminate|]);
    injection Hstep as <-;
    split; cbn; try assumption; try discriminate; try exact I;
    try (destruct (recorder_holds rp) eqn:Hr; congruence).
  all: split_tests; try exact I.
  all: try (destruct (recorder_holds rp) eqn:Hr; cbn in *; congruence).
  subst ts. reflexivity.
Qed.

Lemma recorder_step_preserves_inv (ok : bool) (s s' : Sys) :
  sys_inv s -> recorder_step ok s = Some s' -> sys_inv s'.
Proof.
  intros [Hmux Hexcl Hdone Hexit Hreset] Hstep.
  destruct s as [c [ts tl] d m tp rp o]. unfold recorder_step in Hstep.
  cbn in Hmux, Hexcl, Hdone, Hexit, Hreset, Hstep.
  destruct rp; cbn in Hstep, Hmux, Hexcl, Hdone;
    try discriminate;
    try (destruct m; [discriminate|]);
    try match type of Hstep with
        | context [match tp with TExit => _ | _ => _ end] =>
            destruct tp; try discriminate Hstep
        end;
    injection Hstep as <-;
    split; cbn in *; try assumption; try discriminate; try congruence.
  all: split_tests; try assumption.
  all: try (destruct (ticker_holds tp) eqn:Ht; cbn in *; congruence).
  all: try (destruct tp; cbn in *; try discriminate; exact I).
Qed.

Lemma step_preserves_inv (m : Move) (s s' : Sys) :
  sys_inv s -> step m s = Some s' -> sys_inv s'.
Proof.
  intros Hinv Hstep. destruct m as [secs|rc|ok]; cbn in Hstep.
  - injection Hstep as <-. destruct Hinv. split; assumption.
  - eapply ticker_step_preserves_inv; eassumption.
  - eapply recorder_step_preserves_inv; eassumption.
Qed.

Lemma run_preserves_inv (ms : list Move) (s s' : Sys) :
  sys_inv s -> run ms s = Some s' -> sys_inv s'.
Proof.
  revert s. induction ms as [|m rest IH]; intros s Hinv Hrun; cbn in Hrun.
  - injection Hrun as <-. exact Hinv.
  - destruct (step m s) as [s1|] eqn:Hstep; [|discriminate].
    eapply IH; [|exact Hrun]. eapply step_preserves_inv; eassumption.
Qed.

Lemma reachable_inv (t0 : Z) (ms : list Move) (s : Sys) :
  run ms (boot t0) = Some s -> sys_inv s.
Proof. apply run_preserves_inv, boot_inv. Qed.

Lemma run_app (ms1 ms2 : list Move) (s : Sys) :
  run (ms1 ++ ms2) s =
  match run ms1 s with Some s1 => run ms2 s1 | None => None end.
Proof.
  revert s. induction ms1 as [|m rest IH]; intros s; cbn.
  - reflexivity.
  - destruct (step m s); [apply IH|reflexivity].
Qed.

(** The mutex keeps the main thread out while the ticker holds it, and the
    ticker out while the main thread holds it. *)
Lemma recorder_blocked (ok : bool) (s : Sys) (owner : Thread) :
  rpc s = RLock -> muxSig s = Some owner -> recorder_step ok s = None.
Proof.
  intros Hpc Hmux. unfold recorder_step. rewrite Hpc, Hmux. reflexivity.
Qed.

Lemma ticker_blocked (rc : Z) (s : Sys) (owner : Thread) :
  tpc s = TLock -> muxSig s = Some owner -> ticker_step rc s = None.
Proof.
  intros Hpc Hmux. unfold ticker_step. rewrite Hpc, Hmux. reflexivity.
Qed.

(** ** The threads refine the coalescer operations *)

(** X3. One uninterrupted pass of the main thread's loop body is
    [recordEvent] at the clock's reading. *)
Lemma recorder_pass_refines (ok : bool) (s : Sys) :
  rpc s = RLock -> muxSig s = None ->
  run (recorder_pass ok) s =
  Some (set_rpc RFindNext
          (emit_all (snd (recordEvent (clock s) (burst s)))
             (set_burst (fst (recordEvent (clock s) (burst s))) s))).
Proof.
  destruct s as [c [ts tl] d m tp rp o]. cbn. intros -> ->.
  cbn. destruct (ts =? 0); reflexivity.
Qed.

(** X2. One uninterrupted pass of the ticker's loop body is
    [evaluateAndFire] at the clock's reading. *)
Lemma ticker_pass_refines (rc : Z) (s : Sys) :
  tpc s = TTestSig -> muxSig s = None ->
  run (ticker_pass rc (clock s) (burst s)) s =
  Some (set_tpc TLoop
          (emit_all (snd (evaluateAndFire (clock s) rc (burst s)))
             (set_burst (fst (evaluateAndFire (clock s) rc (burst s))) s))).
Proof.
  destruct s as [c [ts tl] d m tp rp o]. cbn [tpc muxSig clock burst]. intros -> ->.
  unfold ticker_pass, ticker_pass_steps, evaluateAndFire. cbn [timeSig timeSigLast].
  destruct (ts =? 0) eqn:Hset;
    [|destruct (time_sub c ts <? maxWindow) eqn:Hage;
      [destruct (time_sub c tl <? quietPeriod) eqn:Hidle|]];
    run_steps; rewrite ?Hset; run_steps; rewrite ?Hage; run_steps;
    rewrite ?Hidle; run_steps;
    try (destruct (rc =? 0)); cbn [app];
    rewrite <- ?app_assoc, ?app_nil_r; reflexivity.
Qed.

(** From the batch file's return to the loop head (lines 156-161). *)
Lemma ticker_finish (rc : Z) (s : Sys) (stamp : time_t) :
  tpc s = TRunning stamp ->
  run (repeat (Ticker rc) 4) s =
  Some (set_tpc TLoop (set_mux None (set_burst noBurst
          (if rc =? 0 then s else emit (WarnNonZero stamp) s)))).
Proof.
  destruct s as [c [ts tl] d m tp rp o]. cbn [tpc]. intros ->.
  run_steps. destruct (rc =? 0); reflexivity.
Qed.

(** From taking the mutex to the end of the resets (lines 141-160). *)
Lemma ticker_critical_section (rc : Z) (s : Sys) :
  tpc s = TLock -> muxSig s = None ->
  run (repeat (Ticker rc) 6) s =
  Some (set_tpc TUnlock (set_mux (Some ThTicker) (set_burst noBurst
          (emit_all (snd (fire rc (burst s))) s)))).
Proof.
  destruct s as [c [ts tl] d m tp rp o]. cbn [tpc muxSig]. intros -> ->.
  run_steps. destruct (rc =? 0); cbn [app]; rewrite <- ?app_assoc; reflexivity.
Qed.

Lemma ticker_holds_lock_throughout (rc : Z) (s : Sys) (k : nat) :
  tpc s = TLock -> muxSig s = None -> (1 <= k <= 6)%nat ->
  exists sk, run (repeat (Ticker rc) k) s = Some sk /\ muxSig sk = Some ThTicker.
Proof.
  destruct s as [c [ts tl] d m tp rp o]. cbn [tpc muxSig]. intros -> -> Hk.
  assert (Hcases : k = 1%nat \/ k = 2%nat \/ k = 3%nat \/ k = 4%nat \/
                   k = 5%nat \/ k = 6%nat) by lia.
  repeat (destruct Hcases as [->|Hcases]); try subst k;
    eexists; (split; [run_steps; reflexivity|]);
    destruct (rc =? 0); reflexivity.
Qed.

(** ** Firing *)

(** C3, as the specification states it, fails on its last clause.  After a
    fire, a [recordEvent] pass whose stamp is 0 starts no burst: both fields
    stay 0, the encoding of "unset", and a later pass finds nothing to
    fire. *)
Lemma fire_then_zero_stamp_starts_no_burst :
  fired (evaluateAndFire 1010 0 (mkBurst 1000 1004)) = true /\
  fst (recordEvent 0 (fst (evaluateAndFire 1010 0 (mkBurst 1000 1004))))
    = noBurst /\
  fired (evaluateAndFire 1100 0
           (fst (recordEvent 0
                   (fst (evaluateAndFire 1010 0 (mkBurst 1000 1004))))))
    = false.
Proof. vm_compute. repeat split. Qed.

(** C3, amended.  When [evaluateAndFire] fires it sets both [timeSig] and
    [timeSigLast] to 0; the ticker does so with [muxSig] held from before the
    log line until after the second reset (lines 141-161), and the main
    thread cannot take the mutex meanwhile; the [recordEvent] pass that
    follows, if its stamp is not 0, starts a burst at its own stamp:
    [timeSig] is that stamp and is set. *)
Theorem fire_resets_under_lock (now : time_t) (rc : Z) (st : BurstState) :
  fired (evaluateAndFire now rc st) = true ->
  fst (evaluateAndFire now rc st) = noBurst /\
  (forall now' : time_t, now' <> 0 ->
     fst (recordEvent now' (fst (evaluateAndFire now rc st))) = mkBurst now' now' /\
     timeSig (fst (recordEvent now' (fst (evaluateAndFire now rc st)))) = now' /\
     timeSig (fst (recordEvent now' (fst (evaluateAndFire now rc st)))) <> 0) /\
  (forall s : Sys, tpc s = TLock -> muxSig s = None ->
     (exists s', run (repeat (Ticker rc) 6) s = Some s' /\ tpc s' = TUnlock /\
                 burst s' = noBurst /\ muxSig s' = Some ThTicker) /\
     (forall k : nat, (1 <= k <= 6)%nat ->
        exists sk, run (repeat (Ticker rc) k) s = Some sk /\
                   muxSig sk = Some ThTicker /\
                   (forall ok, rpc sk = RLock -> recorder_step ok sk = None))).
Proof.
  intros Hfired.
  assert (E : evaluateAndFire now rc st = fire rc st).
  { destruct (evaluateAndFire_cases now rc st) as [E|E]; [|exact E].
    rewrite E in Hfired. discriminate. }
  rewrite E. split; [reflexivity|]. split.
  { intros now' Hnz. repeat split. exact Hnz. }
  intros s Hpc Hmux. split.
  - eexists. split; [apply ticker_critical_section; assumption|].
    repeat split.
  - intros k Hk.
    destruct (ticker_holds_lock_throughout rc s k Hpc Hmux Hk) as [sk [Hrun Hheld]].
    exists sk. repeat split; try assumption.
    intros ok Hr. eapply recorder_blocked; eassumption.
Qed.

Lemma fire_resets_under_lock_witness :
  fst (evaluateAndFire 1010 0 (mkBurst 1000 1004)) = noBurst /\
  fst (recordEvent 1012 (fst (evaluateAndFire 1010 0 (mkBurst 1000 1004))))
    = mkBurst 1012 1012.
Proof.
  destruct (fire_resets_under_lock 1010 0 (mkBurst 1000 1004) eq_refl)
    as [Hreset [Hnext _]].
  split; [exact Hreset|]. apply (Hnext 1012). lia.
Defined.

(** C6. When the batch file returns a non-zero status on a fire, a warning is
    written and nothing else differs from a fire that returns 0: both stamps
    are reset, the batch file was run once, later passes do nothing until a
    new event is recorded, and the ticker thread goes back to sleep with
    [done] untouched. *)
Theorem nonzero_exit_is_warned_and_reset (now : time_t) (rc : Z) (st : BurstState) :
  rc <> 0 -> fired (evaluateAndFire now rc st) = true ->
  evaluateAndFire now rc st
    = (noBurst, [LogDetected (timeSig st); RunBat; WarnNonZero (timeSig st)]) /\
  fst (evaluateAndFire now rc st) = fst (evaluateAndFire now 0 st) /\
  (forall calls : list (time_t * Z),
     evaluate_all calls (fst (evaluateAndFire now rc st)) = (noBurst, [])) /\
  (forall (s : Sys) (stamp : time_t),
     tpc s = TRunning stamp -> done s = false ->
     run (repeat (Ticker rc) 5) s
       = Some (set_tpc (TSleeping (clock s + pollInterval))
                 (set_mux None (set_burst noBurst (emit (WarnNonZero stamp) s))))).
Proof.
  intros Hrc Hfired.
  assert (E : forall rc', evaluateAndFire now rc' st = fire rc' st).
  { intros rc'. revert Hfired. unfold evaluateAndFire.
    destruct (timeSig st =? 0); [discriminate|].
    destruct (time_sub now (timeSig st) <? maxWindow); [|reflexivity].
    destruct (time_sub now (timeSigLast st) <? quietPeriod);
      [discriminate|reflexivity]. }
  rewrite !E. unfold fire. cbn [fst].
  destruct (Z.eqb_spec rc 0) as [Hz|_]; [contradiction|].
  repeat split.
  - intros calls. apply evaluate_all_unset. reflexivity.
  - intros s stamp Hpc Hdone.
    change (repeat (Ticker rc) 5) with (repeat (Ticker rc) 4 ++ [Ticker rc]).
    rewrite run_app, (ticker_finish rc s stamp Hpc).
    destruct (Z.eqb_spec rc 0) as [Hz|_]; [contradiction|].
    destruct s as [c b d m tp rp o]. cbn [done] in Hdone. subst d.
    reflexivity.
Qed.

Lemma nonzero_exit_is_warned_and_reset_witness :
  evaluateAndFire 1010 3 (mkBurst 1000 1004)
    = (noBurst, [LogDetected 1000; RunBat; WarnNonZero 1000]).
Proof.
  refine (proj1 (nonzero_exit_is_warned_and_reset 1010 3 (mkBurst 1000 1004) _ _)).
  - lia.
  - reflexivity.
Defined.

(** ** Events that arrive during a fire *)

(** C7, as the specification states it, fails on its last clause.  The batch
    file starts at 1005; a change arrives at 1007, when the wait returns and
    the main thread stops at the mutex; the batch file returns at 1015; the
    change is then stamped 1015, the reading taken after the mutex (line
    168 follows line 167), not 1007. *)
Lemma scenarioC_stamp_is_not_arrival :
  option_map (fun s => (clock s, tpc s, rpc s)) (run scenarioC_arrival (boot 1000))
    = Some (1007, TRunning 1000, RLock) /\
  option_map burst (run (scenarioC_arrival ++ scenarioC_rest) (boot 1000))
    = Some (mkBurst 1015 1015) /\
  (1015 =? 1007) = false.
Proof. vm_compute. repeat split. Qed.

(** C7, amended.  A change whose wait returns while the batch file is running
    finds the mutex held by the ticker: the main thread cannot record it
    before the ticker has reset both stamps and released the mutex.  It is
    then recorded as the first event of a new burst, stamped with the clock
    reading taken after the mutex was acquired. *)
Theorem event_during_action_is_stamped_after_release
  (t0 : Z) (ms : list Move) (s : Sys) (stamp : time_t)
  (rc : Z) (ok : bool) (d1 d2 : nat) :
  run ms (boot t0) = Some s -> tpc s = TRunning stamp -> rpc s = RLock ->
  recorder_step ok s = None /\
  (forall k : nat, (k <= 3)%nat ->
     exists sk, run (Elapse d1 :: repeat (Ticker rc) k) s = Some sk /\
                recorder_step ok sk = None) /\
  (exists s', run (finish_then_record rc ok d1 d2) s = Some s' /\
     burst s' = mkBurst (clock s + Z.of_nat d1 + Z.of_nat d2)
                        (clock s + Z.of_nat d1 + Z.of_nat d2) /\
     out s' = out s ++ (if rc =? 0 then [] else [WarnNonZero stamp])
                    ++ [LogRaw (clock s + Z.of_nat d1 + Z.of_nat d2)] /\
     rpc s' = RFindNext /\ muxSig s' = None).
Proof.
  intros Hreach Hpc Hr.
  pose proof (inv_mux s (reachable_inv t0 ms s Hreach)) as Hmux.
  rewrite Hpc in Hmux. cbn [ticker_holds] in Hmux.
  destruct s as [c [ts tl] d m tp rp o]. cbn [tpc rpc muxSig] in Hpc, Hr, Hmux.
  subst tp rp m. cbn [clock out].
  split; [reflexivity|]. split.
  - intros k Hk.
    assert (Hcases : k = 0%nat \/ k = 1%nat \/ k = 2%nat \/ k = 3%nat) by lia.
    repeat (destruct Hcases as [->|Hcases]); try subst k;
      eexists; (split; [run_steps; reflexivity|]);
      destruct (rc =? 0); reflexivity.
  - unfold finish_then_record. cbn [repeat app]. run_steps.
    destruct (rc =? 0); run_steps; change (0 =? 0) with true; cbv iota;
      eexists; (split; [reflexivity|]); cbn [burst out rpc muxSig app];
      rewrite <- ?app_assoc; repeat split.
Qed.

Lemma event_during_action_is_stamped_after_release_witness :
  exists s', run (finish_then_record 0 true 8 0)
               (mkSys 1007 (mkBurst 1000 1000) false (Some ThTicker)
                  (TRunning 1000) RLock [LogRaw 1000; LogDetected 1000; RunBat])
             = Some s' /\
    burst s' = mkBurst (1007 + Z.of_nat 8 + Z.of_nat 0) (1007 + Z.of_nat 8 + Z.of_nat 0) /\
    out s' = [LogRaw 1000; LogDetected 1000; RunBat]
               ++ [] ++ [LogRaw (1007 + Z.of_nat 8 + Z.of_nat 0)] /\
    rpc s' = RFindNext /\ muxSig s' = None.
Proof.
  refine (proj2 (proj2 (event_during_action_is_stamped_after_release
    1000 scenarioC_arrival
    (mkSys 1007 (mkBurst 1000 1000) false (Some ThTicker)
       (TRunning 1000) RLock [LogRaw 1000; LogDetected 1000; RunBat])
    1000 0 true 8 0 _ _ _))).
  - vm_compute. reflexivity.
  - reflexivity.
  - reflexivity.
Defined.

(** C8: the ticker evaluates the stamps before it takes the mutex.  In this
    schedule it reads [timeSig] = 1005 and [timeSigLast] = 0 at lines 123-130
    while the main thread holds the mutex between lines 184 and 185, decides
    to fire, and runs the batch file at clock reading 1005 for a burst whose
    only change came at 1005.  An evaluation under the mutex would have seen
    either no burst or the burst (1005, 1005), and fires on neither. *)
Theorem ticker_evaluates_outside_lock :
  option_map (fun s => (muxSig s, burst s, tpc s)) (run torn_evaluation (boot 1000))
    = Some (Some ThMain, mkBurst 1005 0, TLock) /\
  option_map (fun s => (clock s, out s))
             (run (torn_evaluation ++ torn_completion) (boot 1000))
    = Some (1005, [LogRaw 1005; LogDetected 1005; RunBat]) /\
  fired (evaluateAndFire 1005 0 noBurst) = false /\
  fired (evaluateAndFire 1005 0 (mkBurst 1005 1005)) = false.
Proof. vm_compute. repeat split. Qed.

(** ** Shutdown *)

(** C9. When the handle fails while the main thread waits on it, the wait
    returns (its result is discarded), the loop body runs once more as soon
    as the mutex is free, stamping the wake-up, [FindNextChangeNotification]
    fails and the loop is left with nothing else done: the main thread stands
    before [done = true] (line 189), [done] is still false and the ticker has
    not returned.  The ticker returns only once [done = true] has been
    executed, and until then goes back to sleep at every loop head. *)
Theorem source_failure_ends_recorder_not_ticker
  (t0 : Z) (ms : list Move) (s : Sys) (rc : Z) :
  run ms (boot t0) = Some s -> rpc s = RWait ->
  (exists s', run (source_failure rc (tpc s)) s = Some s' /\
     rpc s' = RStop /\ done s' = false /\ ticker_exited (tpc s') = false /\
     tpc s' = (if ticker_holds (tpc s) then TLoop else tpc s) /\
     burst s' = fst (recordEvent (clock s)
                       (if ticker_holds (tpc s) then noBurst else burst s))) /\
  (forall (ms' : list Move) (s'' : Sys),
     run ms' s = Some s'' -> tpc s'' = TExit ->
     done s'' = true /\ recorder_stopped (rpc s'') = true) /\
  (forall (s' : Sys) (rc' : Z), tpc s' = TLoop -> done s' = false ->
     ticker_step rc' s' = Some (set_tpc (TSleeping (clock s' + pollInterval)) s')).
Proof.
  intros Hreach Hr.
  pose proof (reachable_inv t0 ms s Hreach) as Hinv.
  split; [|split].
  - pose proof (inv_done s Hinv) as Hdone. pose proof (inv_exit s Hinv) as Hexit.
    pose proof (inv_mux s Hinv) as Hmux. pose proof (inv_reset s Hinv) as Hreset.
    rewrite Hr in Hdone, Hmux. cbn [recorder_stopped recorder_holds] in Hdone, Hmux.
    destruct s as [c [ts tl] d m tp rp o].
    cbn [rpc muxSig done tpc burst] in Hr, Hmux, Hdone, Hexit, Hreset. subst rp d.
    unfold source_failure, recorder_pass. cbn [tpc clock burst].
    destruct tp; cbn [ticker_holds] in Hmux; subst m;
      cbn [reset_progress timeSig] in Hreset;
      try match type of Hreset with
          | _ = noBurst => injection Hreset as -> ->
          | ts = 0 => subst ts
          end;
      try (specialize (Hexit eq_refl); discriminate Hexit);
      cbn [ticker_release_steps ticker_holds repeat app]; run_steps;
      try change (0 =? 0) with true; cbv iota;
      try (destruct (rc =? 0)); run_steps;
      try change (0 =? 0) with true; cbv iota;
      cbv [recordEvent noBurst timeSig timeSigLast fst];
      try change (0 =? 0) with true; cbv iota;
      try (destruct (ts =? 0));
      eexists; (split; [reflexivity|]); repeat split.
  - intros ms' s'' Hrun Hexited.
    pose proof (run_preserves_inv ms' s s'' Hinv Hrun) as Hinv''.
    pose proof (inv_exit s'' Hinv'' Hexited) as Hd.
    split; [exact Hd|]. rewrite <- (inv_done s'' Hinv''). exact Hd.
  - intros s' rc' Hpc Hdone. unfold ticker_step. rewrite Hpc, Hdone. reflexivity.
Qed.

Lemma source_failure_ends_recorder_not_ticker_witness :
  exists s', run (source_failure 0 (tpc (boot 1000))) (boot 1000) = Some s' /\
     rpc s' = RStop /\ done s' = false /\ ticker_exited (tpc s') = false /\
     tpc s' = (if ticker_holds (tpc (boot 1000)) then TLoop else tpc (boot 1000)) /\
     burst s' = fst (recordEvent (clock (boot 1000))
                       (if ticker_holds (tpc (boot 1000)) then noBurst
                        else burst (boot 1000))).
Proof.
  refine (proj1 (source_failure_ends_recorder_not_ticker
                   1000 [] (boot 1000) 0 _ _)); reflexivity.
Defined.

(** ** Mutual exclusion *)

(** X1. The statements between lock and unlock of the two threads never overlap:
    in no reachable state do both threads hold [muxSig]. *)
Theorem critical_sections_exclude (t0 : Z) (ms : list Move) (s : Sys) :
  run ms (boot t0) = Some s ->
  ticker_holds (tpc s) && recorder_holds (rpc s) = false.
Proof.
  intros Hreach. exact (inv_excl s (reachable_inv t0 ms s Hreach)).
Qed.

Lemma critical_sections_exclude_witness :
  ticker_holds (TRunning 1000) && recorder_holds RLock = false.
Proof.
  exact (critical_sections_exclude 1000 scenarioC_arrival
           (mkSys 1007 (mkBurst 1000 1000) false (Some ThTicker)
              (TRunning 1000) RLock [LogRaw 1000; LogDetected 1000; RunBat])
           eq_refl).
Defined.

Lemma ticker_pass_refines_witness :
  run (ticker_pass 0 1010 (mkBurst 1000 1004))
      (mkSys 1010 (mkBurst 1000 1004) false None TTestSig RWait [])
  = Some (mkSys 1010 noBurst false None TLoop RWait [LogDetected 1000; RunBat]).
Proof.
  exact (ticker_pass_refines 0
           (mkSys 1010 (mkBurst 1000 1004) false None TTestSig RWait [])
           eq_refl eq_refl).
Defined.

Lemma recorder_pass_refines_witness :
  run (recorder_pass true)
      (mkSys 1004 (mkBurst 1000 1002) false None TLoop RLock [])
  = Some (mkSys 1004 (mkBurst 1000 1004) false None TLoop RFindNext [LogRaw 1004]).
Proof.
  exact (recorder_pass_refines true
           (mkSys 1004 (mkBurst 1000 1002) false None TLoop RLock [])
           eq_refl eq_refl).
Defined.

(** ** Bounds on the delay of a fire *)

(** X13. Events cannot postpone the forced fire: once a pending burst is 60
    seconds old, a pass fires whatever has been recorded since it began. *)
Theorem forced_fire_not_postponed
  (now : time_t) (rc : Z) (stamps : list time_t) (st : BurstState) :
  time_range now -> time_range (timeSig st) -> timeSig st <> 0 ->
  maxWindow <= now - timeSig st ->
  fired (evaluateAndFire now rc (fst (record_all stamps st))) = true.
Proof.
  intros Hnow Hs Hset Hold.
  pose proof (record_all_keeps_start stamps st Hset) as Hkeep.
  unfold evaluateAndFire. rewrite Hkeep.
  destruct (Z.eqb_spec (timeSig st) 0) as [E|_]; [contradiction|].
  rewrite (time_sub_exact _ _ Hnow Hs).
  destruct (Z.ltb_spec (now - timeSig st) maxWindow); [lia|].
  reflexivity.
Qed.

Lemma forced_fire_not_postponed_witness :
  fired (evaluateAndFire 1060 0
           (fst (record_all [1003; 1006; 1059] (mkBurst 1000 1000)))) = true.
Proof.
  apply forced_fire_not_postponed;
    unfold time_range, maxWindow; cbn [timeSig timeSigLast]; lia.
Defined.

(** X14. A burst that has gone quiet is fired by the second pass at the
    latest: of two passes at least the quiet period apart, neither before
    the latest event and with no event in between, one fires. *)
Theorem quiet_burst_fires_within_two_passes
  (now1 now2 : time_t) (rc1 rc2 : Z) (st : BurstState) :
  time_range now1 -> time_range now2 -> stamps_in_range st ->
  timeSig st <> 0 -> timeSigLast st <= now1 -> now1 + quietPeriod <= now2 ->
  fired (evaluateAndFire now1 rc1 st) = true \/
  (evaluateAndFire now1 rc1 st = (st, []) /\
   fired (evaluateAndFire now2 rc2 (fst (evaluateAndFire now1 rc1 st))) = true).
Proof.
  intros H1 H2 [Hs Hl] Hset Hlast Hgap.
  destruct (evaluateAndFire_cases now1 rc1 st) as [E|E]; rewrite E.
  - right. split; [reflexivity|]. cbn [fst]. unfold evaluateAndFire.
    destruct (Z.eqb_spec (timeSig st) 0) as [E0|_]; [contradiction|].
    rewrite (time_sub_exact _ _ H2 Hs), (time_sub_exact _ _ H2 Hl).
    destruct (Z.ltb_spec (now2 - timeSig st) maxWindow); [|reflexivity].
    destruct (Z.ltb_spec (now2 - timeSigLast st) quietPeriod); [lia|].
    reflexivity.
  - left. reflexivity.
Qed.

Lemma quiet_burst_fires_within_two_passes_witness :
  fired (evaluateAndFire 1005 0 (mkBurst 1000 1004)) = true \/
  (evaluateAndFire 1005 0 (mkBurst 1000 1004) = (mkBurst 1000 1004, []) /\
   fired (evaluateAndFire 1010 0
            (fst (evaluateAndFire 1005 0 (mkBurst 1000 1004)))) = true).
Proof.
  apply quiet_burst_fires_within_two_passes;
    unfold time_range, stamps_in_range, time_range, quietPeriod;
    cbn [timeSig timeSigLast]; lia.
Defined.

(** ** Shutdown *)

(** X15. When [FindNextChangeNotification] has failed and the ticker is
    asleep, [monitor] returns: [done] is set, the ticker wakes at the end of
    its sleep, runs one last pass (an [evaluateAndFire] at the reading of
    that moment, so a burst still pending is fired only if it is due then),
    leaves its loop, and [join] returns. *)
Theorem shutdown_runs_one_last_pass
  (s : Sys) (wake : Z) (rc : Z) (ok : bool) (d : nat) :
  rpc s = RStop -> tpc s = TSleeping wake -> muxSig s = None ->
  wake <= clock s + Z.of_nat d ->
  run (shutdown rc ok d (clock s + Z.of_nat d) (burst s)) s =
  Some (mkSys (clock s + Z.of_nat d)
          (fst (evaluateAndFire (clock s + Z.of_nat d) rc (burst s)))
          true None TExit RReturn
          (out s ++ snd (evaluateAndFire (clock s + Z.of_nat d) rc (burst s)))).
Proof.
  destruct s as [c [ts tl] dn m tp rp o]. cbn [rpc tpc muxSig clock burst out].
  intros -> -> -> Hwake.
  apply Z.leb_le in Hwake.
  unfold shutdown, ticker_pass, ticker_pass_steps, evaluateAndFire.
  cbn [timeSig timeSigLast].
  destruct (ts =? 0) eqn:Hset;
    [|destruct (time_sub (c + Z.of_nat d) ts <? maxWindow) eqn:Hage;
      [destruct (time_sub (c + Z.of_nat d) tl <? quietPeriod) eqn:Hidle|]];
    cbn [repeat app];
    run_steps; rewrite ?Hwake; run_steps; rewrite ?Hset; run_steps;
    rewrite ?Hage; run_steps; rewrite ?Hidle; run_steps;
    try (destruct (rc =? 0)); cbn [app];
    rewrite <- ?app_assoc, ?app_nil_r; reflexivity.
Qed.

Lemma shutdown_runs_one_last_pass_witness :
  run (shutdown 0 false 3 (1002 + Z.of_nat 3) (mkBurst 1000 1001))
      (mkSys 1002 (mkBurst 1000 1001) false None (TSleeping 1005) RStop
         [LogRaw 1000; LogRaw 1001]) =
  Some (mkSys (1002 + Z.of_nat 3)
          (fst (evaluateAndFire (1002 + Z.of_nat 3) 0 (mkBurst 1000 1001)))
          true None TExit RReturn
          ([LogRaw 1000; LogRaw 1001]
           ++ snd (evaluateAndFire (1002 + Z.of_nat 3) 0 (mkBurst 1000 1001)))).
Proof.
  apply (shutdown_runs_one_last_pass
           (mkSys 1002 (mkBurst 1000 1001) false None (TSleeping 1005) RStop
              [LogRaw 1000; LogRaw 1001]) 1005 0 false 3);
    try reflexivity.
Defined.

(** ** Pacing *)

Lemma runs_emit_other (o : Output) (s : Sys) :
  is_RunBat o = false -> runs (emit o s) = runs s.
Proof.
  intros H. unfold runs, emit. cbn [out].
  rewrite filter_app. cbn [filter]. rewrite H. now rewrite app_nil_r.
Qed.

Lemma ticker_step_paced (c0 : Z) (n0 : nat) (rc : Z) (s s' : Sys) :
  paced c0 n0 s -> ticker_step rc s = Some s' -> paced c0 n0 s'.
Proof.
  intros [Hclock Hp] Hstep.
  assert (Hsame : clock s' = clock s).
  { unfold ticker_step in Hstep.
    destruct (tpc s); try discriminate Hstep;
      try (destruct (_ <=? _) in Hstep; [|discriminate Hstep]);
      try (destruct (muxSig s); [discriminate Hstep|]);
      injection Hstep as <-; cbn [clock set_tpc set_mux set_burst emit];
      try reflexivity.
    destruct (rc =? 0); reflexivity. }
  split; [lia|]. destruct Hp as [Hlate|[Hruns Hrest]]; [left; lia|].
  unfold ticker_step in Hstep. unfold resting in Hrest.
  destruct (tpc s) eqn:Hpc; try contradiction.
  - (* the loop head *)
    injection Hstep as <-. right. split; [exact Hruns|].
    cbn [tpc set_tpc]. destruct (done s); cbn [resting]; [exact I|].
    unfold pollInterval in *. lia.
  - (* the end of the sleep *)
    destruct (Z.leb_spec wake (clock s)) as [Hw|Hw]; [|discriminate Hstep].
    left. lia.
  - discriminate Hstep.
Qed.

Lemma recorder_step_paced (c0 : Z) (n0 : nat) (ok : bool) (s s' : Sys) :
  paced c0 n0 s -> recorder_step ok s = Some s' -> paced c0 n0 s'.
Proof.
  intros [Hclock Hp] Hstep.
  assert (Hsame : clock s' = clock s /\ tpc s' = tpc s /\ runs s' = runs s).
  { unfold recorder_step in Hstep.
    destruct (rpc s); try discriminate Hstep;
      try (destruct (muxSig s); [discriminate Hstep|]);
      try match type of Hstep with
          | context [match tpc s with TExit => _ | _ => _ end] =>
              destruct (tpc s) eqn:Hpc; try discriminate Hstep
          end;
      injection Hstep as <-;
      try (destruct (timeSig (burst s) =? 0));
      repeat split; try reflexivity; try exact Hpc.
    all: exact (runs_emit_other (LogRaw now) s eq_refl). }
  destruct Hsame as [Hc [Ht Hr]]. unfold paced. rewrite Hc, Ht, Hr.
  split; assumption.
Qed.

Lemma run_paced (c0 : Z) (n0 : nat) (ms : list Move) :
  forall s s', paced c0 n0 s -> run ms s = Some s' -> paced c0 n0 s'.
Proof.
  induction ms as [|m rest IH]; intros s s' Hp Hrun; cbn [run] in Hrun.
  - injection Hrun as <-. exact Hp.
  - destruct (step m s) as [s1|] eqn:Hstep; [|discriminate Hrun].
    apply (IH s1 s'); [|exact Hrun].
    destruct m as [secs|rc|ok]; cbn [step] in Hstep.
    + injection Hstep as <-. destruct Hp as [Hclock Hp].
      unfold paced, runs. cbn [clock tpc out set_clock].
      split; [lia|]. destruct Hp as [Hlate|Hrest]; [left; lia|right; exact Hrest].
    + eapply ticker_step_paced; eassumption.
    + eapply recorder_step_paced; eassumption.
Qed.

(** X16. The batch file is not run again within the poll interval of a pass:
    from a state with the ticker at its loop head, whatever the two threads
    do, the count of runs changes only after at least 5 seconds. *)
Theorem runs_are_paced (ms : list Move) (s s' : Sys) :
  tpc s = TLoop -> run ms s = Some s' -> runs s' <> runs s ->
  clock s + pollInterval <= clock s'.
Proof.
  intros Hpc Hrun Hmore.
  assert (Hstart : paced (clock s) (runs s) s).
  { split; [lia|]. right. split; [reflexivity|]. rewrite Hpc. exact I. }
  destruct (run_paced (clock s) (runs s) ms s s' Hstart Hrun) as [_ [Hlate|[Hsame _]]].
  - exact Hlate.
  - contradiction.
Qed.

Lemma runs_are_paced_witness :
  clock (boot 1000) + pollInterval
  <= clock (mkSys 1007 (mkBurst 1000 1000) false (Some ThTicker)
              (TRunning 1000) RLock [LogRaw 1000; LogDetected 1000; RunBat]).
Proof.
  apply (runs_are_paced scenarioC_arrival (boot 1000)
           (mkSys 1007 (mkBurst 1000 1000) false (Some ThTicker)
              (TRunning 1000) RLock [LogRaw 1000; LogDetected 1000; RunBat])).
  - reflexivity.
  - reflexivity.
  - unfold runs. cbn. lia.
Defined.

(** ** Words *)

Lemma wlen_app (a b : wstring) : wlen (a ++ b) = wlen a + wlen b.
Proof. unfold wlen. rewrite length_app. lia. Qed.

Lemma wlen_nonneg (a : wstring) : 0 <= wlen a.
Proof. unfold wlen. lia. Qed.

Lemma span_word_app (s : wstring) : fst (span_word s) ++ snd (span_word s) = s.
Proof.
  induction s as [|c rest IH]; cbn; [reflexivity|].
  destruct (N.eqb space c); [reflexivity|].
  destruct (span_word rest) as [w r]. cbn in *. now rewrite IH.
Qed.

Lemma span_word_spaceless (s : wstring) : spaceless (fst (span_word s)).
Proof.
  unfold spaceless. induction s as [|c rest IH]; cbn; [tauto|].
  destruct (N.eqb_spec space c) as [E|N]; cbn; [tauto|].
  destruct (span_word rest) as [w r]. cbn in *. intros [H|H]; [congruence|tauto].
Qed.

Lemma span_word_rest (s : wstring) :
  snd (span_word s) = [] \/ exists r, snd (span_word s) = space :: r.
Proof.
  induction s as [|c rest IH]; cbn; [now left|].
  destruct (N.eqb_spec space c) as [E|N]; cbn.
  - right. exists rest. now rewrite E.
  - destruct (span_word rest) as [w r]. exact IH.
Qed.

Lemma span_word_spaceless_id (w : wstring) :
  spaceless w -> span_word w = (w, []).
Proof.
  unfold spaceless. induction w as [|c rest IH]; cbn; [reflexivity|].
  intros H. destruct (N.eqb_spec space c) as [E|N]; [intuition congruence|].
  rewrite IH by tauto. reflexivity.
Qed.

Lemma skip_spaces_app (s : wstring) :
  exists sp, s = sp ++ skip_spaces s /\ Forall (eq space) sp.
Proof.
  induction s as [|c rest [sp [E F]]]; cbn.
  - exists []. split; [reflexivity|constructor].
  - destruct (N.eqb_spec space c) as [Ec|N].
    + exists (c :: sp). split; [cbn; now rewrite <- E|now constructor].
    + exists []. split; [reflexivity|constructor].
Qed.

Lemma skip_spaces_head (s : wstring) :
  skip_spaces s = [] \/
  exists c r, skip_spaces s = c :: r /\ c <> space.
Proof.
  induction s as [|c rest IH]; cbn; [now left|].
  destruct (N.eqb_spec space c) as [E|N]; [exact IH|].
  right. exists c, rest. split; [reflexivity|congruence].
Qed.

Lemma words_go_spaceless (w : wstring) (cur rest : wstring) :
  spaceless w -> words_go cur (w ++ rest) = words_go (cur ++ w) rest.
Proof.
  unfold spaceless. revert cur. induction w as [|c w IH]; intros cur H; cbn.
  - now rewrite app_nil_r.
  - cbn in H. destruct (N.eqb_spec space c) as [E|N]; [intuition congruence|].
    rewrite IH by tauto. now rewrite <- app_assoc.
Qed.

Lemma words_go_flush (cur s : wstring) :
  words_go cur s = flush (cur ++ fst (span_word s)) ++ words (snd (span_word s)).
Proof.
  revert cur. induction s as [|c rest IH]; intros cur; cbn.
  - now rewrite !app_nil_r.
  - destruct (N.eqb_spec space c) as [E|N]; cbn.
    + rewrite app_nil_r. unfold words. cbn.
      destruct (N.eqb_spec space c); [reflexivity|contradiction].
    + rewrite IH. destruct (span_word rest) as [w r]. cbn.
      now rewrite <- app_assoc.
Qed.

Lemma words_spaces (sp s : wstring) :
  Forall (eq space) sp -> words (sp ++ s) = words s.
Proof.
  intros F. induction F as [|c sp E F IH]; [reflexivity|].
  subst c. unfold words in *. cbn. exact IH.
Qed.

Lemma words_skip_spaces (s : wstring) : words (skip_spaces s) = words s.
Proof.
  destruct (skip_spaces_app s) as [sp [E F]].
  rewrite E at 2. symmetry. now apply words_spaces.
Qed.

Lemma words_spaceless (w : wstring) : spaceless w -> words w = flush w.
Proof.
  intros H. unfold words. rewrite words_go_flush.
  rewrite (span_word_spaceless_id w H). cbn. now rewrite !app_nil_r.
Qed.

Lemma words_go_app_space (cur a b : wstring) :
  words_go cur (a ++ space :: b) = words_go cur a ++ words b.
Proof.
  unfold words. revert cur. induction a as [|c a IH]; intros cur; cbn.
  - now rewrite N.eqb_refl.
  - destruct (N.eqb space c).
    + rewrite <- app_assoc. f_equal. apply IH.
    + apply IH.
Qed.

Lemma words_app_space (a b : wstring) :
  words (a ++ space :: b) = words a ++ words b.
Proof. apply words_go_app_space. Qed.

Lemma flush_words (cur : wstring) : spaceless cur -> Forall is_word (flush cur).
Proof.
  intros H. destruct cur; cbn; constructor; [|constructor].
  split; [exact H|discriminate].
Qed.

Lemma words_go_are_words (cur s : wstring) :
  spaceless cur -> Forall is_word (words_go cur s).
Proof.
  revert cur. induction s as [|c rest IH]; intros cur H; cbn.
  - now apply flush_words.
  - destruct (N.eqb_spec space c) as [E|N].
    + apply Forall_app. split; [now apply flush_words|].
      apply IH. unfold spaceless. cbn. tauto.
    + apply IH. unfold spaceless in *. rewrite in_app_iff. cbn.
      intuition congruence.
Qed.

Lemma words_are_words (s : wstring) : Forall is_word (words s).
Proof. apply words_go_are_words. unfold spaceless. cbn. tauto. Qed.

Lemma words_of_word (w : wstring) : is_word w -> words w = [w].
Proof.
  intros [H N]. rewrite (words_spaceless w H). destruct w; [contradiction|reflexivity].
Qed.

Lemma concat_words_of_words (ws : list wstring) :
  Forall is_word ws -> concat (map words ws) = ws.
Proof.
  induction 1 as [|w ws Hw _ IH]; cbn; [reflexivity|].
  now rewrite (words_of_word w Hw), IH.
Qed.

Lemma tokens_words (s : wstring) :
  concat (map words (tokens s)) = words s.
Proof.
  unfold tokens. cbn [map concat].
  rewrite (words_spaceless _ (span_word_spaceless s)).
  rewrite (concat_words_of_words _ (words_are_words _)).
  unfold words at 2. now rewrite words_go_flush.
Qed.

Lemma tokens_spaceless (s : wstring) : Forall spaceless (tokens s).
Proof.
  unfold tokens. constructor; [apply span_word_spaceless|].
  eapply Forall_impl; [|apply words_are_words]. now intros w [H _].
Qed.

Lemma tokens_tail_words (s : wstring) : Forall is_word (tl (tokens s)).
Proof. apply words_are_words. Qed.

Lemma total_len_app (a b : list wstring) :
  total_len (a ++ b) = total_len a + total_len b.
Proof. induction a as [|w a IH]; cbn [app total_len]; lia. Qed.

Lemma total_len_nonneg (a : list wstring) : 0 <= total_len a.
Proof.
  induction a as [|w a IH]; cbn [total_len]; [lia|].
  pose proof (wlen_nonneg w). lia.
Qed.

Lemma total_len_flush (cur : wstring) : total_len (flush cur) <= wlen cur + 1.
Proof.
  pose proof (wlen_nonneg cur). destruct cur; cbn [flush total_len]; lia.
Qed.

Lemma total_len_words_go (cur s : wstring) :
  total_len (words_go cur s) <= wlen cur + wlen s + 1.
Proof.
  revert cur. induction s as [|c rest IH]; intros cur; cbn [words_go].
  - pose proof (total_len_flush cur). unfold wlen in *. cbn. lia.
  - destruct (N.eqb space c).
    + rewrite total_len_app. pose proof (total_len_flush cur).
      specialize (IH []). unfold wlen in *. cbn [length] in *. lia.
    + specialize (IH (cur ++ [c])). rewrite wlen_app in IH.
      unfold wlen in *. cbn [length] in *. lia.
Qed.

Lemma total_len_tokens (s : wstring) : total_len (tokens s) <= wlen s + 1.
Proof.
  unfold tokens. cbn [total_len].
  assert (L : wlen s = wlen (fst (span_word s)) + wlen (snd (span_word s)))
    by (now rewrite <- wlen_app, span_word_app).
  rewrite L. destruct (span_word_rest s) as [E|[r E]]; rewrite E.
  - cbn. lia.
  - unfold words. cbn [words_go]. rewrite N.eqb_refl. cbn [flush app].
    pose proof (total_len_words_go [] r). unfold wlen in *. cbn [length] in *. lia.
Qed.

(** ** Searching and cutting *)

Lemma skipn_wlen (pre suf : wstring) :
  skipn (Z.to_nat (wlen pre)) (pre ++ suf) = suf.
Proof.
  unfold wlen. rewrite Nat2Z.id, skipn_app, skipn_all, Nat.sub_diag. reflexivity.
Qed.

Lemma find_from_at (p : wchar_t -> bool) (pre suf : wstring) :
  find_from p (pre ++ suf) (wlen pre) =
  match index_where p suf with
  | Some k => wlen pre + Z.of_nat k
  | None => npos
  end.
Proof.
  unfold find_from. rewrite skipn_wlen, wlen_app.
  destruct (Z.leb_spec (wlen pre + wlen suf) (wlen pre)) as [H|H]; [|reflexivity].
  assert (suf = []) as ->
    by (destruct suf; [reflexivity|unfold wlen in H; cbn in H; lia]).
  reflexivity.
Qed.

Lemma index_where_span (s : wstring) :
  index_where (N.eqb space) s =
  match snd (span_word s) with
  | [] => None
  | _ :: _ => Some (length (fst (span_word s)))
  end.
Proof.
  induction s as [|c rest IH]; cbn [index_where span_word]; [reflexivity|].
  destruct (N.eqb space c); [reflexivity|].
  rewrite IH. destruct (span_word rest) as [w r]. cbn [fst snd].
  destruct r; reflexivity.
Qed.

Lemma index_where_skip (s : wstring) :
  index_where (fun x => negb (N.eqb space x)) s =
  match skip_spaces s with
  | [] => None
  | _ :: _ => Some (length s - length (skip_spaces s))%nat
  end.
Proof.
  induction s as [|c rest IH]; cbn [index_where skip_spaces]; [reflexivity|].
  destruct (N.eqb space c); cbn [negb].
  - rewrite IH. destruct (skip_spaces_app rest) as [sp [E _]].
    destruct (skip_spaces rest) as [|d r] eqn:Hs; [reflexivity|].
    cbn [option_map]. f_equal.
    assert (length (d :: r) <= length rest)%nat
      by (rewrite E, length_app; lia).
    cbn [length] in *. lia.
  - f_equal. lia.
Qed.

Lemma find_first_of_at (pre suf : wstring) :
  find_first_of (pre ++ suf) space (wlen pre) =
  match snd (span_word suf) with
  | [] => npos
  | _ :: _ => wlen pre + wlen (fst (span_word suf))
  end.
Proof.
  unfold find_first_of. rewrite find_from_at, index_where_span.
  destruct (snd (span_word suf)); reflexivity.
Qed.

Lemma find_first_not_of_at (pre suf : wstring) :
  find_first_not_of (pre ++ suf) space (wlen pre) =
  match skip_spaces suf with
  | [] => npos
  | _ :: _ => wlen pre + (wlen suf - wlen (skip_spaces suf))
  end.
Proof.
  unfold find_first_not_of. rewrite find_from_at, index_where_skip.
  destruct (skip_spaces_app suf) as [sp [E _]].
  destruct (skip_spaces suf) as [|d r] eqn:Hs; [reflexivity|].
  assert (length (d :: r) <= length suf)%nat
    by (rewrite E, length_app; lia).
  unfold wlen. lia.
Qed.

Lemma find_first_of_npos (s : wstring) :
  wlen s <= npos -> find_first_of s space npos = npos.
Proof.
  intros H. unfold find_first_of, find_from.
  destruct (Z.leb_spec (wlen s) npos); [reflexivity|lia].
Qed.

Lemma substr_at (pre suf : wstring) (count : size_t) :
  substr (pre ++ suf) (wlen pre) count
  = Ok (firstn (Z.to_nat (Z.min count (wlen suf))) suf).
Proof.
  unfold substr. rewrite skipn_wlen, wlen_app.
  pose proof (wlen_nonneg suf).
  destruct (Z.ltb_spec (wlen pre + wlen suf) (wlen pre)); [lia|].
  do 3 f_equal. lia.
Qed.

Lemma substr_word (pre w rest : wstring) :
  substr (pre ++ w ++ rest) (wlen pre) (wlen w) = Ok w.
Proof.
  rewrite substr_at, wlen_app. pose proof (wlen_nonneg rest).
  rewrite Z.min_l by lia. unfold wlen. rewrite Nat2Z.id.
  rewrite firstn_app, firstn_all, Nat.sub_diag. cbn. now rewrite app_nil_r.
Qed.

Lemma substr_rest (pre suf : wstring) (count : size_t) :
  wlen suf <= count -> substr (pre ++ suf) (wlen pre) count = Ok suf.
Proof.
  intros H. rewrite substr_at, Z.min_r by lia.
  unfold wlen. rewrite Nat2Z.id. now rewrite firstn_all.
Qed.

Lemma size_wrap_small (z : Z) :
  0 <= z < 18446744073709551616 -> size_wrap z = z.
Proof. intros H. unfold size_wrap. now rewrite Z.mod_small. Qed.

(** ** The loop of [split] *)

Lemma split_loop_done (fuel : nat) (s : wstring) (width : size_t)
  (res : list wstring) (prev : size_t) :
  split_loop fuel s width res prev npos = Ok (res, prev, npos).
Proof. destruct fuel; reflexivity. Qed.

Lemma split_loop_step (fuel : nat) (s : wstring) (width : size_t)
  (res : list wstring) (prev next : size_t) (w : wstring) :
  next <> npos -> substr s prev (size_wrap (next - prev)) = Ok w ->
  split_loop (S fuel) s width res prev next =
  split_loop fuel s width (appendWord res w width)
    (find_first_not_of s space next)
    (find_first_of s space (find_first_not_of s space next)).
Proof.
  intros Hn Hw. cbn [split_loop].
  destruct (Z.eqb_spec next npos) as [E|_]; [contradiction|].
  rewrite Hw. reflexivity.
Qed.

Lemma tokens_nonspace (d : wchar_t) (r : wstring) :
  d <> space -> tokens (d :: r) = words (d :: r).
Proof.
  intros Hd. unfold tokens, words at 2. rewrite words_go_flush.
  cbn [span_word app]. destruct (N.eqb_spec space d) as [E|_]; [congruence|].
  destruct (span_word r) as [w r']. reflexivity.
Qed.

Lemma split_loop_tokens (width : size_t) (fuel : nat) :
  forall (s pre suf : wstring) (res : list wstring),
    s = pre ++ suf -> wlen s < npos -> (length suf < fuel)%nat ->
    split_finish s width
      (split_loop fuel s width res (wlen pre) (find_first_of s space (wlen pre)))
    = Ok (wrap_tokens (tokens suf) width res).
Proof.
  induction fuel as [|fuel IH]; intros s pre suf res Hs Hlen Hfuel; [lia|].
  pose proof (wlen_nonneg pre) as Hpre. pose proof (wlen_nonneg suf) as Hsuf.
  assert (Hsl : wlen s = wlen pre + wlen suf) by (subst s; apply wlen_app).
  assert (Hnext : find_first_of s space (wlen pre) =
                  match snd (span_word suf) with
                  | [] => npos
                  | _ :: _ => wlen pre + wlen (fst (span_word suf))
                  end) by (subst s; apply find_first_of_at).
  rewrite Hnext. clear Hnext. unfold tokens.
  pose proof (span_word_app suf) as Hsplit.
  pose proof (span_word_rest suf) as Hrest.
  destruct (span_word suf) as [w after]. cbn [fst snd] in *.
  destruct Hrest as [->|[r ->]].
  - (* no space left: the loop ends, line 43 appends the rest *)
    rewrite app_nil_r in Hsplit. subst w.
    rewrite split_loop_done. cbn [split_finish].
    destruct (Z.eqb_spec (wlen pre) npos) as [E|_]; [lia|].
    rewrite size_wrap_small by (unfold npos in *; lia).
    assert (Hsub : substr s (wlen pre) (npos - wlen pre) = Ok suf)
      by (subst s; apply substr_rest; lia).
    rewrite Hsub. reflexivity.
  - (* a space at [next]: one pass of the loop *)
    pose proof (wlen_nonneg w) as Hw.
    assert (Hsw : wlen suf = wlen w + wlen (space :: r))
      by (rewrite <- Hsplit; apply wlen_app).
    assert (Hr : wlen (space :: r) = 1 + wlen r)
      by (unfold wlen; cbn [length]; lia).
    pose proof (wlen_nonneg r) as Hr0.
    assert (Hs2 : s = (pre ++ w) ++ space :: r)
      by (rewrite <- app_assoc, Hsplit; exact Hs).
    rewrite (split_loop_step fuel s width res (wlen pre) (wlen pre + wlen w) w).
    2: lia.
    2: { replace (wlen pre + wlen w - wlen pre) with (wlen w) by lia.
         rewrite size_wrap_small by (unfold npos in *; lia).
         rewrite Hs, <- Hsplit. apply substr_word. }
    assert (Hprev : find_first_not_of s space (wlen pre + wlen w) =
                    match skip_spaces (space :: r) with
                    | [] => npos
                    | _ :: _ => wlen (pre ++ w)
                                + (wlen (space :: r) - wlen (skip_spaces (space :: r)))
                    end).
    { rewrite <- wlen_app, Hs2. apply find_first_not_of_at. }
    rewrite Hprev. clear Hprev.
    cbn [wrap_tokens fold_left]. fold (wrap_tokens (words (space :: r)) width
                                        (appendWord res w width)).
    rewrite <- (words_skip_spaces (space :: r)).
    destruct (skip_spaces_app (space :: r)) as [sp [Hsp _]].
    destruct (skip_spaces_head (space :: r)) as [Hnil|[d [r' [Hd Hne]]]].
    + (* only spaces follow: the loop ends with prev = next = npos *)
      rewrite Hnil. rewrite find_first_of_npos by lia.
      rewrite split_loop_done. cbn [split_finish].
      rewrite Z.eqb_refl. reflexivity.
    + (* the next word starts at [prev] *)
      rewrite Hd in *.
      assert (Hs3 : s = (pre ++ w ++ sp) ++ d :: r')
        by (rewrite Hs2, Hsp, <- !app_assoc; reflexivity).
      assert (Hlen3 : wlen (space :: r) = wlen sp + wlen (d :: r'))
        by (rewrite Hsp at 1; apply wlen_app).
      replace (wlen (pre ++ w) + (wlen (space :: r) - wlen (d :: r')))
        with (wlen (pre ++ w ++ sp)) by (rewrite !wlen_app; clear - Hlen3; lia).
      rewrite (IH s (pre ++ w ++ sp) (d :: r') _ Hs3 Hlen).
      * rewrite (tokens_nonspace d r' Hne). reflexivity.
      * assert (L1 : length suf = (length w + length (space :: r))%nat)
          by (rewrite <- Hsplit; apply length_app).
        assert (L2 : length (space :: r) = (length sp + length (d :: r'))%nat)
          by (rewrite Hsp at 1; apply length_app).
        destruct sp as [|c sp]; [cbn in Hsp; congruence|].
        cbn [length] in *. clear - L1 L2 Hfuel. lia.
Qed.

(** [split], when it does not return [s] whole, hands [appendWord] the tokens
    of [s] one after the other, starting from a single empty line. *)
Lemma split_tokens (s : wstring) (width : size_t) :
  width <= wlen s -> wlen s < npos ->
  split s width = Ok (wrap_tokens (tokens s) width [[]]).
Proof.
  intros Hw Hlen. unfold split.
  destruct (Z.ltb_spec (wlen s) width); [lia|].
  apply (split_loop_tokens width (S (length s)) s [] s [[]]);
    [reflexivity|exact Hlen|lia].
Qed.

(** ** [appendWord] *)

Lemma appendWord_snoc (front : list wstring) (back w : wstring) (width : size_t) :
  appendWord (front ++ [back]) w width =
  if width <? size_wrap (size_wrap (wlen back + wlen w) + 1)
  then front ++ [back; w]
  else front ++ [join_word back w].
Proof.
  unfold appendWord. rewrite last_last, removelast_last.
  destruct (width <? _); [|reflexivity].
  now rewrite <- app_assoc.
Qed.

Lemma appendWord_nil (w : wstring) (width : size_t) :
  appendWord [] w width = [w].
Proof. unfold appendWord. cbn. destruct (width <? _); reflexivity. Qed.

Lemma words_join_word (back w : wstring) :
  words (join_word back w) = words back ++ words w.
Proof.
  unfold join_word. destruct back as [|c back]; [reflexivity|].
  rewrite <- app_assoc. apply words_app_space.
Qed.

Lemma concat_words_snoc (front : list wstring) (l : wstring) :
  concat (map words (front ++ [l])) = concat (map words front) ++ words l.
Proof. rewrite map_app, concat_app. cbn. now rewrite app_nil_r. Qed.

Lemma appendWord_words (lines : list wstring) (w : wstring) (width : size_t) :
  concat (map words (appendWord lines w width))
  = concat (map words lines) ++ words w.
Proof.
  destruct lines as [|back front _] using rev_ind.
  - rewrite appendWord_nil. cbn. now rewrite app_nil_r.
  - rewrite appendWord_snoc. destruct (width <? _).
    + change [back; w] with ([back] ++ [w]). rewrite app_assoc.
      now rewrite concat_words_snoc.
    + rewrite !concat_words_snoc, words_join_word. now rewrite app_assoc.
Qed.

Lemma wrap_tokens_words (toks : list wstring) (width : size_t) (res : list wstring) :
  concat (map words (wrap_tokens toks width res))
  = concat (map words res) ++ concat (map words toks).
Proof.
  revert res. induction toks as [|w toks IH]; intros res; cbn [wrap_tokens fold_left].
  - cbn. now rewrite app_nil_r.
  - fold (wrap_tokens toks width (appendWord res w width)).
    rewrite IH, appendWord_words. cbn [map concat]. now rewrite app_assoc.
Qed.

(** X4. [split] returns for every string (no [out_of_range], the loop ends
    within its bound), and the words of the lines it returns, in order, are
    the words of the string. *)
Theorem split_keeps_words (s : wstring) (width : size_t) :
  wlen s < npos ->
  exists lines, split s width = Ok lines /\ concat (map words lines) = words s.
Proof.
  intros Hlen. destruct (Z.ltb_spec (wlen s) width) as [Hshort|Hlong].
  - exists [s]. unfold split.
    destruct (Z.ltb_spec (wlen s) width); [|lia].
    split; [reflexivity|]. cbn. now rewrite app_nil_r.
  - eexists. split; [apply split_tokens; assumption|].
    rewrite wrap_tokens_words. cbn [map concat]. rewrite tokens_words.
    reflexivity.
Qed.

Lemma join_word_len (back w : wstring) :
  wlen (join_word back w) <= wlen back + wlen w + 1.
Proof.
  unfold join_word. destruct back as [|c back]; rewrite !wlen_app.
  - unfold wlen. cbn [length]. lia.
  - unfold wlen. cbn [length]. lia.
Qed.

Lemma appendWord_fits (front : list wstring) (back w : wstring)
  (width : size_t) (allowed : list wstring) :
  wlen back + wlen w + 1 < 18446744073709551616 ->
  In w allowed ->
  Forall (line_fits width allowed) (front ++ [back]) ->
  Forall (line_fits width allowed) (appendWord (front ++ [back]) w width).
Proof.
  intros Hsmall Hin Hall. rewrite appendWord_snoc.
  pose proof (wlen_nonneg back). pose proof (wlen_nonneg w).
  rewrite (size_wrap_small (wlen back + wlen w)) by lia.
  rewrite size_wrap_small by lia.
  destruct (Z.ltb_spec width (wlen back + wlen w + 1)) as [Hover|Hfit].
  - change [back; w] with ([back] ++ [w]). rewrite app_assoc.
    apply Forall_app. split; [exact Hall|].
    constructor; [now right|constructor].
  - apply Forall_app in Hall. destruct Hall as [Hfront _].
    apply Forall_app. split; [exact Hfront|].
    constructor; [|constructor]. left.
    pose proof (join_word_len back w). lia.
Qed.

Lemma appendWord_last_len (front : list wstring) (back w : wstring) (width : size_t) :
  wlen (last (appendWord (front ++ [back]) w width) []) <= wlen back + wlen w + 1.
Proof.
  rewrite appendWord_snoc. pose proof (wlen_nonneg back).
  destruct (width <? _).
  - change [back; w] with ([back] ++ [w]). rewrite app_assoc, last_last. lia.
  - rewrite last_last. apply join_word_len.
Qed.

Lemma appendWord_nonempty (lines : list wstring) (w : wstring) (width : size_t) :
  appendWord lines w width <> [].
Proof.
  unfold appendWord. destruct (width <? _); intros E;
    apply app_eq_nil in E; destruct E as [_ E]; discriminate.
Qed.

Lemma wrap_tokens_fits (width : size_t) (allowed : list wstring) :
  forall (toks : list wstring) (front : list wstring) (back : wstring),
    wlen back + total_len toks < 18446744073709551616 ->
    incl toks allowed ->
    Forall (line_fits width allowed) (front ++ [back]) ->
    Forall (line_fits width allowed) (wrap_tokens toks width (front ++ [back])).
Proof.
  induction toks as [|w toks IH]; intros front back Hsmall Hincl Hall;
    cbn [wrap_tokens fold_left]; [exact Hall|].
  fold (wrap_tokens toks width (appendWord (front ++ [back]) w width)).
  cbn [total_len] in Hsmall. pose proof (total_len_nonneg toks).
  pose proof (appendWord_last_len front back w width) as Hlast.
  pose proof (appendWord_fits front back w width allowed) as Hfits.
  destruct (appendWord (front ++ [back]) w width) as [|l ls] eqn:E
    using rev_ind.
  - exfalso. eapply appendWord_nonempty; exact E.
  - rewrite last_last in Hlast. apply IH.
    + lia.
    + intros x Hx. apply Hincl. now right.
    + apply Hfits; [lia|apply Hincl; now left|exact Hall].
Qed.

Lemma tokens_in_words (s l : wstring) :
  In l (tokens s) -> l <> [] -> In l (words s).
Proof.
  unfold tokens, words at 2. rewrite words_go_flush. cbn [app].
  intros [E|Hin] Hne; apply in_or_app.
  - left. subst l. destruct (fst (span_word s)); [contradiction|now left].
  - now right.
Qed.

(** Every line [split] returns keeps to the width or is a token of the
    string. *)
Lemma split_fits (s : wstring) (width : size_t) (lines : list wstring) :
  wlen s < npos -> 0 <= width -> split s width = Ok lines ->
  Forall (line_fits width (tokens s)) lines.
Proof.
  intros Hlen Hwidth Hsplit.
  destruct (Z.ltb_spec (wlen s) width) as [Hshort|Hwrap].
  - unfold split in Hsplit. destruct (Z.ltb_spec (wlen s) width); [|lia].
    injection Hsplit as <-. constructor; [|constructor]. left. lia.
  - rewrite (split_tokens s width Hwrap Hlen) in Hsplit. injection Hsplit as <-.
    apply (wrap_tokens_fits width (tokens s) (tokens s) [] []).
    + pose proof (total_len_tokens s). unfold npos in Hlen.
      change (wlen []) with 0. lia.
    + apply incl_refl.
    + constructor; [|constructor]. left. exact Hwidth.
Qed.

(** X5. A line that [split] returns is longer than [width] only if it is a
    single word of the string (one that is itself longer than [width]). *)
Theorem split_lines_fit (s : wstring) (width : size_t) (lines : list wstring)
  (l : wstring) :
  wlen s < npos -> 0 <= width -> split s width = Ok lines ->
  In l lines -> width < wlen l -> In l (words s).
Proof.
  intros Hlen Hwidth Hsplit Hin Hlong.
  pose proof (split_fits s width lines Hlen Hwidth Hsplit) as Hall.
  rewrite Forall_forall in Hall. destruct (Hall l Hin) as [Hfit|Htok]; [lia|].
  apply tokens_in_words; [exact Htok|].
  intros ->. change (wlen []) with 0 in Hlong. lia.
Qed.

Lemma split_lines_fit_witness :
  In (wstr "aaaaaaa"%string) (words (wstr "aaaaaaa bb"%string)).
Proof.
  apply (split_lines_fit (wstr "aaaaaaa bb"%string) 5
           [[]; wstr "aaaaaaa"%string; wstr "bb"%string]
           (wstr "aaaaaaa"%string)).
  - reflexivity.
  - lia.
  - reflexivity.
  - right. left. reflexivity.
  - reflexivity.
Defined.

Lemma unwords_snoc (ws : list wstring) (w : wstring) :
  ws <> [] -> unwords (ws ++ [w]) = unwords ws ++ space :: w.
Proof.
  induction ws as [|a ws IH]; intros Hne; [contradiction|].
  destruct ws as [|b ws]; [reflexivity|].
  change (unwords ((a :: b :: ws) ++ [w]))
    with (a ++ space :: unwords ((b :: ws) ++ [w])).
  rewrite IH by discriminate.
  change (unwords (a :: b :: ws)) with (a ++ space :: unwords (b :: ws)).
  now rewrite <- app_assoc.
Qed.

Lemma single_spaced_word (w : wstring) : spaceless w -> single_spaced w.
Proof.
  intros H. unfold single_spaced. rewrite (words_spaceless w H).
  destruct w; reflexivity.
Qed.

Lemma single_spaced_join (back w : wstring) :
  single_spaced back -> is_word w -> single_spaced (join_word back w).
Proof.
  unfold single_spaced. intros Hback Hw.
  rewrite words_join_word, (words_of_word w Hw).
  unfold join_word. destruct back as [|c back].
  - cbn. reflexivity.
  - rewrite unwords_snoc.
    + rewrite Hback. now rewrite <- app_assoc.
    + intros E. rewrite E in Hback. discriminate.
Qed.

Lemma appendWord_single_spaced (lines : list wstring) (w : wstring) (width : size_t) :
  is_word w -> Forall single_spaced lines ->
  Forall single_spaced (appendWord lines w width).
Proof.
  intros Hw Hall. destruct lines as [|back front _] using rev_ind.
  - rewrite appendWord_nil. constructor; [|constructor].
    apply single_spaced_word, Hw.
  - rewrite appendWord_snoc. apply Forall_app in Hall. destruct Hall as [Hf Hb].
    inversion Hb as [|? ? Hback _]; subst.
    destruct (width <? _); apply Forall_app; (split; [exact Hf|]).
    + constructor; [exact Hback|]. constructor; [|constructor].
      apply single_spaced_word, Hw.
    + constructor; [|constructor]. now apply single_spaced_join.
Qed.

Lemma wrap_tokens_single_spaced (width : size_t) (toks : list wstring) :
  forall res : list wstring,
    Forall is_word toks -> Forall single_spaced res ->
    Forall single_spaced (wrap_tokens toks width res).
Proof.
  induction toks as [|w toks IH]; intros res Hw Hall;
    cbn [wrap_tokens fold_left]; [exact Hall|].
  inversion Hw as [|? ? Hw1 Hw2]; subst.
  apply IH; [exact Hw2|]. now apply appendWord_single_spaced.
Qed.

(** X6. When [split] wraps (the string is not shorter than [width]), every
    line it returns is its words joined by single spaces: runs of spaces are
    collapsed and none is kept at either end of a line. *)
Theorem split_lines_single_spaced (s : wstring) (width : size_t)
  (lines : list wstring) :
  width <= wlen s -> wlen s < npos -> split s width = Ok lines ->
  Forall single_spaced lines.
Proof.
  intros Hwrap Hlen Hsplit.
  rewrite (split_tokens s width Hwrap Hlen) in Hsplit. injection Hsplit as <-.
  unfold tokens. cbn [wrap_tokens fold_left].
  apply wrap_tokens_single_spaced; [apply words_are_words|].
  change [[]] with ([] ++ [@nil wchar_t]). rewrite appendWord_snoc.
  pose proof (single_spaced_word _ (span_word_spaceless s)) as Hfirst.
  assert (Hnil : single_spaced []) by reflexivity.
  unfold join_word. cbn [app].
  destruct (width <? _); repeat constructor; assumption.
Qed.

Lemma split_lines_single_spaced_witness :
  Forall single_spaced [wstr "aa bb"%string; wstr "cc"%string].
Proof.
  apply (split_lines_single_spaced (wstr "aa  bb cc"%string) 5
           [wstr "aa bb"%string; wstr "cc"%string]).
  - unfold wlen. cbn [wstr length]. lia.
  - reflexivity.
  - reflexivity.
Defined.

(** Lines before the last are never touched again. *)
Lemma wrap_tokens_keeps_front (width : size_t) (toks : list wstring) :
  forall (front : list wstring) (back : wstring),
    exists tail, tail <> [] /\
      wrap_tokens toks width (front ++ [back]) = front ++ tail.
Proof.
  induction toks as [|w toks IH]; intros front back; cbn [wrap_tokens fold_left].
  - exists [back]. split; [discriminate|reflexivity].
  - rewrite appendWord_snoc. destruct (width <? _).
    + change [back; w] with ([back] ++ [w]). rewrite app_assoc.
      destruct (IH (front ++ [back]) w) as [tail [Hne E]].
      exists (back :: tail). split; [discriminate|].
      unfold wrap_tokens in E. rewrite E. now rewrite <- app_assoc.
    + apply IH.
Qed.

(** X7. When the first word of the string (what precedes its first space) is
    at least [width] long, the first line [split] returns is empty and the
    word is the whole second line. *)
Theorem split_first_line_empty (s : wstring) (width : size_t) :
  wlen s < npos -> width <= wlen (fst (span_word s)) ->
  exists rest, split s width = Ok ([] :: fst (span_word s) :: rest).
Proof.
  intros Hlen Hfirst.
  assert (Hs : wlen s = wlen (fst (span_word s)) + wlen (snd (span_word s)))
    by (now rewrite <- wlen_app, span_word_app).
  pose proof (wlen_nonneg (fst (span_word s))) as H1.
  pose proof (wlen_nonneg (snd (span_word s))) as H2.
  pose proof (total_len_tokens s) as Htot.
  rewrite (split_tokens s width) by lia.
  unfold tokens in *. cbn [wrap_tokens fold_left total_len] in *.
  change [[]] with ([] ++ [@nil wchar_t]). rewrite appendWord_snoc.
  change (wlen []) with 0. unfold npos in Hlen.
  rewrite (size_wrap_small (0 + _)) by lia. rewrite size_wrap_small by lia.
  destruct (Z.ltb_spec width (0 + wlen (fst (span_word s)) + 1)); [|lia].
  cbn [app].
  destruct (words (snd (span_word s))) as [|w toks]; cbn [fold_left].
  - exists []. reflexivity.
  - cbn [total_len] in Htot.
    pose proof (wlen_nonneg w) as H3. pose proof (total_len_nonneg toks) as H4.
    change [[]; fst (span_word s)] with ([[]] ++ [fst (span_word s)]).
    rewrite appendWord_snoc.
    rewrite (size_wrap_small (wlen _ + wlen _)) by lia.
    rewrite size_wrap_small by lia.
    destruct (Z.ltb_spec width (wlen (fst (span_word s)) + wlen w + 1)); [|lia].
    change ([[]] ++ [fst (span_word s); w])
      with ([[]; fst (span_word s)] ++ [w]).
    destruct (wrap_tokens_keeps_front width toks [[]; fst (span_word s)] w)
      as [tail [_ E]].
    exists tail. f_equal. exact E.
Qed.

Lemma split_first_line_empty_witness :
  exists rest,
    split (wstr "aaaaaaa bb"%string) 5
    = Ok ([] :: fst (span_word (wstr "aaaaaaa bb"%string)) :: rest).
Proof.
  apply (split_first_line_empty (wstr "aaaaaaa bb"%string) 5).
  - reflexivity.
  - apply Z.leb_le. reflexivity.
Defined.

Lemma split_keeps_words_witness :
  exists lines, split (wstr "aa  bb cc"%string) 5 = Ok lines /\
    concat (map words lines) = words (wstr "aa  bb cc"%string).
Proof. apply split_keeps_words. reflexivity. Defined.


(** ** The usage text *)

Lemma split_ok (s : wstring) (width : size_t) :
  wlen s < npos -> exists lines, split s width = Ok lines.
Proof.
  intros Hlen. destruct (Z.ltb_spec (wlen s) width) as [Hshort|Hlong].
  - exists [s]. unfold split. destruct (Z.ltb_spec (wlen s) width); [reflexivity|lia].
  - eexists. apply split_tokens; assumption.
Qed.

Lemma rawString_tokens_short :
  forallb (fun w => wlen w <=? 31) (tokens rawString) = true.
Proof. vm_compute. reflexivity. Qed.

Lemma usage_width_range (console : option Z) :
  0 <= usage_width console < 18446744073709551616.
Proof.
  destruct console as [x|]; cbn [usage_width]; [|lia].
  unfold size_wrap. apply Z.mod_pos_bound. lia.
Qed.

(** X8. On a console at least 32 columns wide, and when no console is
    attached (80 columns are then assumed), [printUsage] returns and every
    line it writes after the banner is shorter than the console is wide. *)
Theorem usage_lines_fit_console (console : option Z) :
  32 <= usage_width console ->
  exists lines,
    usage_lines console = Ok lines /\
    Forall (fun l => wlen l < usage_width console) lines /\
    printUsage console
      = Ok (usage_banner ++ concat (map (fun l => l ++ [newline]) lines) ++ [newline]).
Proof.
  intros Hwide. pose proof (usage_width_range console) as Hrange.
  assert (Hlen : wlen rawString < npos) by reflexivity.
  destruct (split_ok rawString (size_wrap (usage_width console - 1)) Hlen)
    as [lines Hsplit].
  exists lines. unfold printUsage, usage_lines. rewrite Hsplit.
  split; [reflexivity|]. split; [|reflexivity].
  rewrite size_wrap_small in Hsplit by lia.
  assert (Hpos : 0 <= usage_width console - 1) by lia.
  pose proof (split_fits rawString _ lines Hlen Hpos Hsplit) as Hfit.
  pose proof rawString_tokens_short as Hshort.
  rewrite forallb_forall in Hshort.
  eapply Forall_impl; [|exact Hfit].
  intros l [Hl|Hl]; [lia|].
  specialize (Hshort l Hl). apply Z.leb_le in Hshort. lia.
Qed.

Lemma usage_lines_fit_console_witness :
  exists lines,
    usage_lines None = Ok lines /\
    Forall (fun l => wlen l < usage_width None) lines /\
    printUsage None
      = Ok (usage_banner ++ concat (map (fun l => l ++ [newline]) lines) ++ [newline]).
Proof. apply (usage_lines_fit_console None). unfold usage_width. lia. Defined.

(** ** The command line *)

Lemma at_last (front : wstring) (c : wchar_t) :
  wlen (front ++ [c]) < 18446744073709551616 ->
  at_ (front ++ [c]) (size_wrap (wlen (front ++ [c]) - 1)) = Ok c.
Proof.
  intros H. pose proof (wlen_nonneg front) as H0. rewrite wlen_app in *.
  change (wlen [c]) with 1 in *.
  rewrite size_wrap_small by lia. unfold at_. rewrite wlen_app.
  change (wlen [c]) with 1.
  destruct (Z.ltb_spec (wlen front + 1 - 1) (wlen front + 1)); [|lia].
  replace (Z.to_nat (wlen front + 1 - 1)) with (length front)
    by (unfold wlen; lia).
  rewrite nth_error_app2, Nat.sub_diag by lia. reflexivity.
Qed.

Lemma substr_front (front : wstring) (c : wchar_t) :
  wlen (front ++ [c]) < 18446744073709551616 ->
  substr (front ++ [c]) 0 (size_wrap (wlen (front ++ [c]) - 1)) = Ok front.
Proof.
  intros H. pose proof (wlen_nonneg front) as H0. rewrite wlen_app in *.
  change (wlen [c]) with 1 in *.
  rewrite size_wrap_small by lia.
  replace (wlen front + 1 - 1) with (wlen front) by lia.
  exact (substr_word [] front [c]).
Qed.

Lemma snoc_nonempty {A : Type} (front : list A) (c : A) : front ++ [c] <> [].
Proof. intros E. apply app_eq_nil in E. destruct E as [_ E]. discriminate E. Qed.

Lemma nil_not_backslashed : ~ ends_with_backslash [].
Proof. intros [front E]. symmetry in E. exact (snoc_nonempty front backslash E). Qed.

Lemma strip_loop_nonempty (fuel : nat) (path : wstring) :
  path <> [] ->
  strip_loop (S fuel) path =
  match at_ path (size_wrap (wlen path - 1)) with
  | Ok ch =>
      if N.eqb ch backslash then
        match substr path 0 (size_wrap (wlen path - 1)) with
        | Ok shorter => strip_loop fuel shorter
        | OutOfRange => OutOfRange
        | Timeout => Timeout
        end
      else Ok path
  | OutOfRange => OutOfRange
  | Timeout => Timeout
  end.
Proof. destruct path; [contradiction|reflexivity]. Qed.

Lemma strip_loop_spec (fuel : nat) :
  forall path : wstring,
    wlen path < 18446744073709551616 -> (length path <= fuel)%nat ->
    exists kept n,
      strip_loop fuel path = Ok kept /\
      path = kept ++ repeat backslash n /\
      ~ ends_with_backslash kept.
Proof.
  induction fuel as [|fuel IH]; intros path Hlen Hfuel.
  - destruct path; [|cbn in Hfuel; lia].
    exists [], 0%nat. split; [reflexivity|]. split; [reflexivity|].
      exact nil_not_backslashed.
  - destruct path as [|c front _] using rev_ind.
    + exists [], 0%nat. split; [reflexivity|]. split; [reflexivity|].
      exact nil_not_backslashed.
    + assert (Hstep : strip_loop (S fuel) (front ++ [c]) =
                      if N.eqb c backslash then strip_loop fuel front
                      else Ok (front ++ [c])).
      { rewrite strip_loop_nonempty by apply snoc_nonempty.
        rewrite (at_last front c Hlen).
        destruct (N.eqb c backslash); [|reflexivity].
        now rewrite (substr_front front c Hlen). }
      rewrite Hstep. destruct (N.eqb_spec c backslash) as [->|Hc].
      * rewrite wlen_app in Hlen. rewrite length_app in Hfuel. cbn in Hfuel.
        pose proof (wlen_nonneg [backslash]).
        destruct (IH front) as [kept [n [Hk [Hp Hn]]]]; [lia|lia|].
        exists kept, (S n). split; [exact Hk|]. split; [|exact Hn].
        rewrite Hp at 1. rewrite <- app_assoc. f_equal.
        change [backslash] with (repeat backslash 1).
        rewrite <- repeat_app. f_equal. lia.
      * exists (front ++ [c]), 0%nat. split; [reflexivity|].
        split; [now rewrite app_nil_r|].
        intros [f E]. apply app_inj_tail in E. destruct E as [_ E]. contradiction.
Qed.

(** X9. The loop of lines 217-219 returns the path without its trailing
    backslashes: what it returns does not end with a backslash, and the path
    is that followed by backslashes only.  A path made of backslashes alone
    becomes empty. *)
Theorem strip_backslashes_spec (path : wstring) :
  wlen path < 18446744073709551616 ->
  exists kept n,
    strip_backslashes path = Ok kept /\
    path = kept ++ repeat backslash n /\
    ~ ends_with_backslash kept.
Proof.
  intros Hlen. apply strip_loop_spec; [exact Hlen|lia].
Qed.

Lemma strip_backslashes_spec_witness :
  exists kept n,
    strip_backslashes [67; 58; 92; 100; 92; 92]%N = Ok kept /\
    [67; 58; 92; 100; 92; 92]%N = kept ++ repeat backslash n /\
    ~ ends_with_backslash kept.
Proof. apply strip_backslashes_spec. reflexivity. Defined.

Section BatFile.

Variable towlower : wchar_t -> wchar_t.

Lemma char_at_app (stem l : wstring) (k : nat) :
  char_at (stem ++ l) (wlen stem + Z.of_nat k) = nth k l 0%N.
Proof.
  unfold char_at, wlen. rewrite <- Nat2Z.inj_add, Nat2Z.id.
  rewrite app_nth2 by lia. f_equal. lia.
Qed.

Lemma last_four (p : wstring) :
  (4 <= length p)%nat -> exists stem a b c d, p = stem ++ [a; b; c; d].
Proof.
  intros H. exists (firstn (length p - 4) p).
  pose proof (firstn_skipn (length p - 4) p) as E.
  pose proof (length_skipn (length p - 4) p) as L.
  destruct (skipn (length p - 4) p) as [|a [|b [|c [|d [|e r]]]]];
    cbn [length] in L; try lia.
  exists a, b, c, d. now rewrite E.
Qed.

Lemma not_bat_file_short (p : wstring) :
  wlen p < 4 -> not_bat_file towlower p = true.
Proof.
  intros H. unfold not_bat_file.
  destruct (Z.ltb_spec (wlen p) 4); [reflexivity|lia].
Qed.

Lemma not_bat_file_suffix (stem : wstring) (a b c d : wchar_t) :
  wlen (stem ++ [a; b; c; d]) < 18446744073709551616 ->
  not_bat_file towlower (stem ++ [a; b; c; d]) =
  negb (N.eqb a dot)
  || negb (N.eqb (towlower b) letter_b)
  || negb (N.eqb (towlower c) letter_a)
  || negb (N.eqb (towlower d) letter_t).
Proof.
  intros H. pose proof (wlen_nonneg stem) as H0. unfold not_bat_file.
  rewrite wlen_app in *. change (wlen [a; b; c; d]) with 4 in *.
  destruct (Z.ltb_spec (wlen stem + 4) 4); [lia|].
  rewrite !size_wrap_small by lia.
  replace (wlen stem + 4 - 4) with (wlen stem + Z.of_nat 0) by lia.
  replace (wlen stem + 4 - 3) with (wlen stem + Z.of_nat 1) by lia.
  replace (wlen stem + 4 - 2) with (wlen stem + Z.of_nat 2) by lia.
  replace (wlen stem + 4 - 1) with (wlen stem + Z.of_nat 3) by lia.
  rewrite !char_at_app. cbn [nth].
  destruct (N.eqb a dot), (N.eqb (towlower b) letter_b),
    (N.eqb (towlower c) letter_a); reflexivity.
Qed.

(** X10. The second argument passes the test of lines 227-230 exactly when it
    ends with a dot followed by three characters that [towlower] maps to b, a
    and t; in particular nothing shorter than four characters passes. *)
Theorem bat_file_suffix (p : wstring) :
  wlen p < 18446744073709551616 ->
  not_bat_file towlower p = false <->
  exists stem x y z,
    p = stem ++ [dot; x; y; z] /\
    towlower x = letter_b /\ towlower y = letter_a /\ towlower z = letter_t.
Proof.
  intros Hlen. split.
  - intros Hok. destruct (Z.ltb_spec (wlen p) 4) as [Hshort|Hlong].
    + rewrite (not_bat_file_short p Hshort) in Hok. discriminate.
    + destruct (last_four p) as [stem [a [x [y [z E]]]]];
        [unfold wlen in Hlong; lia|].
      subst p. rewrite (not_bat_file_suffix stem a x y z Hlen) in Hok.
      repeat (apply orb_false_elim in Hok; destruct Hok as [Hok ?]).
      repeat match goal with
             | H : negb _ = false |- _ =>
                 apply negb_false_iff, N.eqb_eq in H
             end.
      exists stem, x, y, z. subst a. repeat split; assumption.
  - intros [stem [x [y [z [E [Hx [Hy Hz]]]]]]]. subst p.
    rewrite (not_bat_file_suffix stem dot x y z Hlen), Hx, Hy, Hz.
    now rewrite !N.eqb_refl.
Qed.

End BatFile.

Lemma bat_file_suffix_witness :
  not_bat_file (fun c => if ((65 <=? c) && (c <=? 90))%N then (c + 32)%N else c)
    (wstr "run.BAT"%string) = false <->
  exists stem x y z,
    wstr "run.BAT"%string = stem ++ [dot; x; y; z] /\
    (fun c => if ((65 <=? c) && (c <=? 90))%N then (c + 32)%N else c) x = letter_b /\
    (fun c => if ((65 <=? c) && (c <=? 90))%N then (c + 32)%N else c) y = letter_a /\
    (fun c => if ((65 <=? c) && (c <=? 90))%N then (c + 32)%N else c) z = letter_t.
Proof.
  apply (bat_file_suffix
           (fun c => if ((65 <=? c) && (c <=? 90))%N then (c + 32)%N else c)
           (wstr "run.BAT"%string)).
  reflexivity.
Defined.

(** ** The date in the log lines *)

(** X12. After the loop of lines 145-152 (and 173-180) the string the array
    holds is the first line of the string it held: nothing from the first
    carriage return or line feed on is written to the log.  The array keeps
    its length. *)
Theorem chomp_first_line (buf : wstring) :
  c_str (chomp buf) = first_line (c_str buf) /\
  ~ In carriage_return (c_str (chomp buf)) /\
  ~ In newline (c_str (chomp buf)) /\
  length (chomp buf) = length buf.
Proof.
  induction buf as [|ch rest [IH1 [IH2 [IH3 IH4]]]]; cbn [chomp c_str first_line].
  - repeat split; cbn; tauto.
  - destruct (N.eqb_spec ch carriage_return) as [Ecr|Ncr];
      [|destruct (N.eqb_spec ch newline) as [Elf|Nlf]]; cbn [orb].
    + subst ch. cbn [c_str]. rewrite N.eqb_refl.
      destruct (N.eqb_spec carriage_return nul) as [E|_]; [discriminate E|].
      cbn [first_line]. rewrite N.eqb_refl. cbn [orb].
      repeat split; cbn; tauto.
    + subst ch. cbn [c_str]. rewrite N.eqb_refl.
      destruct (N.eqb_spec newline nul) as [E|_]; [discriminate E|].
      cbn [first_line]. rewrite N.eqb_refl, orb_true_r.
      repeat split; cbn; tauto.
    + cbn [c_str]. destruct (N.eqb_spec ch nul) as [E0|N0].
      * repeat split; cbn; try tauto. now rewrite IH4.
      * cbn [first_line].
        destruct (N.eqb_spec ch carriage_return); [contradiction|].
        destruct (N.eqb_spec ch newline); [contradiction|]. cbn [orb].
        rewrite IH1. repeat split.
        -- rewrite <- IH1. cbn. intros [E|H]; [congruence|contradiction].
        -- rewrite <- IH1. cbn. intros [E|H]; [congruence|contradiction].
        -- cbn. now rewrite IH4.
Qed.

(** ** [wmain] *)

Lemma printUsage_ok (console : option Z) :
  exists text, printUsage console = Ok text.
Proof.
  unfold printUsage, usage_lines.
  destruct (split_ok rawString (size_wrap (usage_width console - 1)))
    as [lines E]; [reflexivity|].
  rewrite E. eexists. reflexivity.
Qed.

Ltac conjuncts := repeat match goal with |- _ /\ _ => split end.

(** X11. [wmain] never lets an exception out: the usage text is produced and
    the first argument is cleaned without a throw.  With a single argument
    vector entry it writes the usage text and returns 0.  It monitors the
    cleaned path with the second argument, and then returns 0, exactly when
    there are at least three entries, the cleaned path and the second
    argument are both found by [FindFirstFileW], the second passes the [.bat]
    test and the notification handle is obtained.  In every other case it
    writes one complaint and calls [exit(1)] without monitoring: "too few
    arguments" with no or two entries, the [.bat] complaint when the
    directory is found and the extension is refused.  Entries after the third
    are ignored. *)
Theorem wmain_outcomes
  (towlower : wchar_t -> wchar_t)
  (FindFirstFileW FindFirstChangeNotificationW : wstring -> bool)
  (console : option Z) (argv : list wstring) :
  wlen (nth 1 argv []) < 18446744073709551616 ->
  exists text path,
    printUsage console = Ok text /\
    strip_backslashes (nth 1 argv []) = Ok path /\
    (length argv = 1%nat ->
     wmain towlower FindFirstFileW FindFirstChangeNotificationW console argv
       = ([Usage text], Return 0)) /\
    (can_monitor towlower FindFirstFileW FindFirstChangeNotificationW argv path
       = true ->
     wmain towlower FindFirstFileW FindFirstChangeNotificationW console argv
       = ([LogStart path; Monitor path (nth 2 argv [])], Return 0)) /\
    (length argv <> 1%nat ->
     can_monitor towlower FindFirstFileW FindFirstChangeNotificationW argv path
       = false ->
     exists what,
       wmain towlower FindFirstFileW FindFirstChangeNotificationW console argv
         = ([Complain what], Exit 1)) /\
    (length argv <> 1%nat -> (length argv < 3)%nat ->
     wmain towlower FindFirstFileW FindFirstChangeNotificationW console argv
       = ([Complain TooFewArguments], Exit 1)) /\
    ((3 <= length argv)%nat -> FindFirstFileW path = true ->
     not_bat_file towlower (nth 2 argv []) = true ->
     wmain towlower FindFirstFileW FindFirstChangeNotificationW console argv
       = ([Complain NotABatFile], Exit 1)) /\
    (forall p b : wstring,
       In (Monitor p b)
          (fst (wmain towlower FindFirstFileW FindFirstChangeNotificationW
                  console argv)) ->
       can_monitor towlower FindFirstFileW FindFirstChangeNotificationW argv path
         = true /\ p = path /\ b = nth 2 argv []).
Proof.
  intros Hlen.
  destruct (printUsage_ok console) as [text Etext].
  destruct (strip_loop_spec (length (nth 1 argv [])) (nth 1 argv [])
              Hlen (le_n _)) as [path [n [Hstrip _]]].
  fold (strip_backslashes (nth 1 argv [])) in Hstrip. clear Hlen.
  exists text, path. split; [exact Etext|]. split; [exact Hstrip|].
  unfold wmain, can_monitor. rewrite Etext, Hstrip.
  destruct (Z.eqb_spec (Z.of_nat (length argv)) 1) as [H1|H1];
    [|destruct (Z.ltb_spec (Z.of_nat (length argv)) 3) as [H3|H3]];
    destruct (Z.leb_spec 3 (Z.of_nat (length argv))) as [G3|G3]; try lia;
    cbn [andb].
  - (* argc = 1 *)
    conjuncts; try (intros; lia); try discriminate.
    + reflexivity.
    + intros p b [E|[]]. discriminate E.
  - (* argc = 0 or 2 *)
    conjuncts; try (intros; lia); try discriminate.
    + intros _ _. exists TooFewArguments. reflexivity.
    + reflexivity.
    + intros p b [E|[]]. discriminate E.
  - (* argc >= 3 *)
    destruct (FindFirstFileW path) eqn:Hdir,
             (not_bat_file towlower (nth 2 argv [])) eqn:Hbat,
             (FindFirstFileW (nth 2 argv [])) eqn:Hfile,
             (FindFirstChangeNotificationW path) eqn:Hnotify;
      cbn [negb andb fst];
      conjuncts; try (intros; lia); try discriminate;
      try (intros; reflexivity);
      try (intros; eexists; reflexivity);
      try (intros p b [E|[]]; discriminate E);
      try (intros p b [E|[E|[]]]; [discriminate E|];
           injection E as <- <-; conjuncts; reflexivity).
Qed.

Lemma wmain_outcomes_witness :
  exists text path,
    printUsage None = Ok text /\
    strip_backslashes (nth 1 example_argv []) = Ok path /\
    (can_monitor (fun c => c) (fun _ => true) (fun _ => true) example_argv path
       = true ->
     wmain (fun c => c) (fun _ => true) (fun _ => true) None example_argv
       = ([LogStart path; Monitor path (nth 2 example_argv [])], Return 0)).
Proof.
  destruct (wmain_outcomes (fun c => c) (fun _ => true) (fun _ => true) None
              example_argv) as [text [path [Htext [Hpath [_ [Hmon _]]]]]].
  - reflexivity.
  - exists text, path. repeat split; assumption.
Defined.
